(** * ServiceNow query tool: the front end's query lifecycle, history log,
      result cells and the build-time asset rewrite

    A shallow embedding of [src/frontend/src/App.jsx] and
    [src/frontend/vite.config.ts].

    Modelling conventions.
    - A JavaScript string is its sequence of UTF-16 code units, [list N].
    - A value that crosses the wire or the storage slot is a JSON value
      ([json]); [undefined], which only arises from a property read, is the
      [None] of [value := option json].
    - Code that can throw returns a [completion]: [Normal v] or [Throw e].
    - The component's [useState] cells are the fields of [AppState]; a
      [World] joins them with the browser's [localStorage], a finite map
      from keys to strings, and with the log of the requests handed to
      [axios.get].
    - The network is an input: a [transport] result says whether a response
      was delivered (and with which status and body) or not.
    - A Number is an IEEE 754 double, held exactly: a literal is rounded to
      the nearest double and a double is printed with the shortest digits
      that denote it.
    - What the platform does with data the sources do not write is taken
      from its specification: the JSON grammar, React's rule for the children
      of an element, the URL Standard's parser for references resolved on
      the base.  The parse of a reference that brings a scheme or a host of
      its own is a parameter of the rewrite.
    - [localStorage.setItem] always has room (no quota). *)

From Stdlib Require Import ZArith NArith List String Ascii Bool Lia DecimalString.
From stdpp Require Import gmap strings list fin_maps.

Local Open Scope N_scope.
Local Open Scope list_scope.

(* ===================================================================== *)
(** ** JavaScript strings, values and completions *)
(* ===================================================================== *)

Module JS.

(** A string is a list of UTF-16 code units. *)
Abbreviation jsstring := (list N).

(** [lit "abc"] is the JavaScript string literal ['abc'] (ASCII only). *)
Definition lit (s : string) : jsstring :=
  List.map N_of_ascii (list_ascii_of_string s).

Definition str_eqb (a b : jsstring) : bool := bool_decide (a = b).

(** [s.startsWith(p)] *)
Fixpoint startsWith (p s : jsstring) : bool :=
  match p, s with
  | [], _ => true
  | a :: p', b :: s' => (a =? b) && startsWith p' s'
  | _ :: _, [] => false
  end.

(** [s.includes(p)] *)
Fixpoint includes (p s : jsstring) : bool :=
  startsWith p s ||
  match s with
  | [] => false
  | _ :: s' => includes p s'
  end.

(** A code unit is a 16-bit number. *)
Definition code_unit (c : N) : Prop := c < 65536.
Definition well_formed (s : jsstring) : Prop := Forall code_unit s.

(** Surrogate code units. *)
Definition is_lead (c : N) : bool := (0xD800 <=? c) && (c <=? 0xDBFF).
Definition is_trail (c : N) : bool := (0xDC00 <=? c) && (c <=? 0xDFFF).
Definition is_surrogate (c : N) : bool := (0xD800 <=? c) && (c <=? 0xDFFF).

(** The code point of a surrogate pair. *)
Definition pair_code_point (hi lo : N) : N :=
  0x10000 + (hi - 0xD800) * 0x400 + (lo - 0xDC00).

(** [StringToCodePoints]: a lead surrogate followed by a trail surrogate is
    one code point; every other code unit, a lone surrogate included, is a
    code point of its own. *)
Fixpoint code_points (s : jsstring) : list N :=
  match s with
  | [] => []
  | c :: s' =>
      match s' with
      | d :: s'' =>
          if is_lead c && is_trail d
          then pair_code_point c d :: code_points s''
          else c :: code_points s'
      | [] => [c]
      end
  end.

(** [UTF16EncodeCodePoint] *)
Definition utf16_encode (cp : N) : jsstring :=
  if cp <? 0x10000 then [cp]
  else [0xD800 + (cp - 0x10000) / 0x400; 0xDC00 + (cp - 0x10000) mod 0x400].

(** *** Numbers

    A Number that JSON text can denote: an IEEE 754 double other than NaN.
    [NumFinite s m e] is [m * 2^e] with the sign [s], where
    [2^52 <= m < 2^53] and [-1074 <= e <= 971], or [0 < m < 2^52] and
    [e = -1074]. *)
Inductive jsnumber :=
| NumZero (negative : bool)
| NumFinite (negative : bool) (significand : N) (exponent : Z)
| NumInfinity (negative : bool).

Definition number_eqb (x y : jsnumber) : bool :=
  match x, y with
  | NumZero a, NumZero b => Bool.eqb a b
  | NumInfinity a, NumInfinity b => Bool.eqb a b
  | NumFinite a m e, NumFinite b m' e' => Bool.eqb a b && (m =? m') && (e =? e')%Z
  | _, _ => false
  end.

(** [2^z] and [10^z]; 1 when [z] is negative. *)
Definition pow2 (z : Z) : N := 2 ^ Z.to_N z.
Definition pow10 (z : Z) : N := 10 ^ Z.to_N z.

(** [p / q >= 2^k] and [p / q >= 10^k], for [q > 0]. *)
Definition ratio_ge_pow2 (p q : N) (k : Z) : bool := q * pow2 k <=? p * pow2 (- k).
Definition ratio_ge_pow10 (p q : N) (k : Z) : bool := q * pow10 k <=? p * pow10 (- k).

(** The [k] with [2^k <= p / q < 2^(k+1)], for [p, q > 0]. *)
Definition floor_log2 (p q : N) : Z :=
  let k := (Z.of_N (N.log2 p) - Z.of_N (N.log2 q))%Z in
  if ratio_ge_pow2 p q k then k else (k - 1)%Z.

(** The double nearest to [p / q], ties to the even significand; beyond
    the largest double it is infinite. *)
Definition round_ratio (negative : bool) (p q : N) : jsnumber :=
  if p =? 0 then NumZero negative
  else
    let e := Z.max (floor_log2 p q - 52) (-1074) in
    let n := p * pow2 (- e) in
    let d := q * pow2 e in
    let m := n / d in
    let r := n mod d in
    let m := if (d <? 2 * r) || ((d =? 2 * r) && N.odd m) then m + 1 else m in
    let (m, e) := if m =? 2 ^ 53 then (2 ^ 52, (e + 1)%Z) else (m, e) in
    if m =? 0 then NumZero negative
    else if (971 <? e)%Z then NumInfinity negative
    else NumFinite negative m e.

(** The double nearest to [digits * 10^e10].  The two shortcuts spare the
    powers of ten of an exponent far outside the range of a double: above
    [10^400] every value is infinite, below [10^-400] it is zero. *)
Definition of_decimal (negative : bool) (digits : N) (e10 : Z) : jsnumber :=
  if digits =? 0 then NumZero negative
  else if (400 <? e10)%Z then NumInfinity negative
  else if (e10 + Z.of_N (N.log2 digits) + 1 <? -400)%Z then NumZero negative
  else round_ratio negative (digits * pow10 e10) (pow10 (- e10)).

Definition is_digit (c : N) : bool := (48 <=? c) && (c <=? 57).

(** The leading decimal digits of a text: their value after [acc], how many
    they are, and the text after them. *)
Fixpoint read_digits (acc : N) (s : jsstring) : N * Z * jsstring :=
  match s with
  | c :: s' =>
      if is_digit c then
        let '(v, n, rest) := read_digits (10 * acc + (c - 48)) s' in
        (v, (n + 1)%Z, rest)
      else (acc, 0%Z, s)
  | [] => (acc, 0%Z, [])
  end.

(** The Number a number literal denotes: an optional minus, the digits of
    the integer part and of the fraction, an optional exponent. *)
Definition of_literal (s : jsstring) : jsnumber :=
  let (negative, s) :=
    match s with
    | c :: s' => if c =? 45 then (true, s') else (false, s)
    | [] => (false, s)
    end in
  let '(ip, _, s) := read_digits 0 s in
  let '(digits, scale, s) :=
    match s with
    | c :: s' => if c =? 46 then read_digits ip s' else (ip, 0%Z, s)
    | [] => (ip, 0%Z, s)
    end in
  let e :=
    match s with
    | c :: s' =>
        if (c =? 101) || (c =? 69) then
          match s' with
          | x :: t =>
              if x =? 45 then (- Z.of_N (fst (fst (read_digits 0 t))))%Z
              else if x =? 43 then Z.of_N (fst (fst (read_digits 0 t)))
              else Z.of_N (fst (fst (read_digits 0 s')))
          | [] => 0%Z
          end
        else 0%Z
    | [] => 0%Z
    end in
  of_decimal negative digits (e - scale).

(** [Number::toString(x)], radix 10. *)

(** The [n] with [10^(n-1) <= p / q < 10^n], found from an estimate that is
    off by less than the fuel. *)
Fixpoint adjust_log10 (fuel : nat) (p q : N) (f : Z) : Z :=
  match fuel with
  | O => f
  | S fuel =>
      if negb (ratio_ge_pow10 p q f) then adjust_log10 fuel p q (f - 1)
      else if ratio_ge_pow10 p q (f + 1) then adjust_log10 fuel p q (f + 1)
      else f
  end.

Definition decimal_exponent (p q : N) : Z :=
  (adjust_log10 8 p q (floor_log2 p q * 30103 / 100000) + 1)%Z.

(** Among the decimals of [k] digits that denote the double [x], the one
    nearest to [p / q] (the even one of two): its digits [s], as a number,
    and the [n] with [s * 10^(n-k)] its value; none when no decimal of [k]
    digits denotes [x]. *)
Definition digits_of_length (x : jsnumber) (p q : N) (n k : Z) : option (N * Z) :=
  let P := p * pow10 (k - n) in
  let Q := q * pow10 (n - k) in
  let lo := P / Q in
  let r := P mod Q in
  let hi := lo + 1 in
  let denotes s := number_eqb (of_decimal false s (n - k)) x in
  let pick :=
    if r =? 0 then Some lo
    else
      match denotes lo, denotes hi with
      | true, true =>
          if 2 * r <? Q then Some lo
          else if Q <? 2 * r then Some hi
          else if N.even lo then Some lo else Some hi
      | true, false => Some lo
      | false, true => Some hi
      | false, false => None
      end in
  match pick with
  | Some s => if s =? pow10 k then Some (pow10 (k - 1), (n + 1)%Z) else Some (s, n)
  | None => None
  end.

Fixpoint shortest_from (fuel : nat) (x : jsnumber) (p q : N) (n k : Z) : N * Z * Z :=
  match fuel with
  | O => (0, k, n)
  | S fuel =>
      match digits_of_length x p q n k with
      | Some (s, n') => (s, k, n')
      | None => shortest_from fuel x p q n (k + 1)
      end
  end.

(** The shortest digits of the positive double [m * 2^e]: [s], their number
    [k] and the exponent [n].  Seventeen digits always suffice. *)
Definition shortest (m : N) (e : Z) : N * Z * Z :=
  let p := m * pow2 e in
  let q := pow2 (- e) in
  shortest_from 17 (NumFinite false m e) p q (decimal_exponent p q) 1.

Definition decimal (n : N) : jsstring :=
  if n =? 0 then [48] else lit (NilEmpty.string_of_uint (N.to_uint n)).

Definition zeros (n : Z) : jsstring := repeat 48 (Z.to_nat n).

(** The notation of the digits [s] with the exponent [n]: plain up to 21
    integer digits and down to six zeros after the point, exponential
    otherwise. *)
Definition format_digits (s : N) (k n : Z) : jsstring :=
  let ds := decimal s in
  if ((k <=? n) && (n <=? 21))%Z then ds ++ zeros (n - k)
  else if ((0 <? n) && (n <=? 21))%Z then
    firstn (Z.to_nat n) ds ++ [46] ++ skipn (Z.to_nat n) ds
  else if ((-6 <? n) && (n <=? 0))%Z then [48; 46] ++ zeros (- n) ++ ds
  else
    let e := (n - 1)%Z in
    let sign := if (e <? 0)%Z then [45] else [43] in
    match ds with
    | d :: [] => [d] ++ [101] ++ sign ++ decimal (Z.abs_N e)
    | d :: rest => [d] ++ [46] ++ rest ++ [101] ++ sign ++ decimal (Z.abs_N e)
    | [] => []
    end.

Definition number_to_string (x : jsnumber) : jsstring :=
  match x with
  | NumZero _ => [48]
  | NumInfinity negative => (if negative then [45] else []) ++ lit "Infinity"
  | NumFinite negative m e =>
      let '(s, k, n) := shortest m e in
      (if negative then [45] else []) ++ format_digits s k n
  end.

(** *** Values *)

#[warnings="-register-all"]
Inductive json :=
| JNull
| JBool (b : bool)
| JNum (n : jsnumber)
| JStr (s : jsstring)
| JArr (items : list json)
| JObj (fields : list (jsstring * json)).

(** A JavaScript value as the program meets it: a JSON value or
    [undefined]. *)
Abbreviation value := (option json).
Abbreviation undefined := (@None json).

(** The Number written [s] in the source. *)
Definition num (s : string) : json := JNum (of_literal (lit s)).

(** [ToBoolean]: of the Numbers, the two zeros are falsy. *)
Definition truthy (v : value) : bool :=
  match v with
  | None => false
  | Some JNull => false
  | Some (JBool b) => b
  | Some (JNum (NumZero _)) => false
  | Some (JNum _) => true
  | Some (JStr s) => match s with [] => false | _ => true end
  | Some (JArr _) => true
  | Some (JObj _) => true
  end.

(** [a || b] for a second operand that is a JSON value. *)
Definition or_else (a : value) (b : json) : json :=
  match a with
  | Some x => if truthy a then x else b
  | None => b
  end.

(** What a [throw] carries, as far as the program looks at it: the
    [message] every [Error] has and the [response] an axios error may have. *)
Record axios_response := Response { status : N; data : json }.

Inductive error_kind := TypeError | SyntaxError | AxiosError | PlainError.

Record js_error := Err {
  err_kind : error_kind;
  err_message : jsstring;
  err_response : option axios_response
}.

Inductive completion (A : Type) :=
| Normal (a : A)
| Throw (e : js_error).
Arguments Normal {A} a.
Arguments Throw {A} e.

Definition bind {A B} (c : completion A) (k : A -> completion B) : completion B :=
  match c with
  | Normal a => k a
  | Throw e => Throw e
  end.

Definition type_error (msg : string) : js_error :=
  Err TypeError (lit msg) None.

(** The property [k] among the fields of an object, which holds one
    binding per name (see [JSON.obj_set]). *)
Fixpoint lookup_field (k : jsstring) (fs : list (jsstring * json)) : value :=
  match fs with
  | [] => None
  | (k', v) :: fs' => if str_eqb k k' then Some v else lookup_field k fs'
  end.

(** [v.k] for a property name [k] that is neither an index, nor [length],
    nor a name on a built-in prototype (all the data fields the program
    reads are such names): reading from [null] or [undefined] throws a
    TypeError, a primitive or an array has no such property, an object
    yields its own property or [undefined]. *)
Definition get (k : jsstring) (v : value) : completion value :=
  match v with
  | None => Throw (type_error "Cannot read properties of undefined")
  | Some JNull => Throw (type_error "Cannot read properties of null")
  | Some (JObj fs) => Normal (lookup_field k fs)
  | Some _ => Normal None
  end.

(** Whether a value is an object with an own property [k]. *)
Definition has_field (k : jsstring) (v : json) : bool :=
  match v with
  | JObj fs => match lookup_field k fs with Some _ => true | None => false end
  | _ => false
  end.

(** [v?.k] *)
Definition get_opt (k : jsstring) (v : value) : completion value :=
  match v with
  | None | Some JNull => Normal None
  | _ => get k v
  end.

(** [[...v]] for the iterable values JSON can produce: an array yields its
    elements, a string its code points, anything else is not iterable. *)
Definition spread (v : json) : completion (list json) :=
  match v with
  | JArr xs => Normal xs
  | JStr s => Normal (List.map (fun cp => JStr (utf16_encode cp)) (code_points s))
  | _ => Throw (type_error "searchHistory is not iterable")
  end.

(** [ToPrimitive(v)] for a value that JSON text denotes, as far as it can
    throw.  An ordinary object is converted by the first of [valueOf] and
    [toString] (or the other way round, by the hint) that is callable and
    returns a primitive: the inherited [valueOf] returns the object itself,
    so the conversion rests on [toString], and an own property of that name,
    which JSON text can only make a non-callable value, leaves nothing to
    call: a TypeError.  An array is converted by [join], which converts
    every element in turn. *)
Fixpoint to_primitive_ok (v : json) : bool :=
  match v with
  | JObj fs => match lookup_field (lit "toString") fs with Some _ => false | None => true end
  | JArr xs => forallb to_primitive_ok xs
  | _ => true
  end.

Definition to_primitive (v : value) : completion unit :=
  match v with
  | Some x =>
      if to_primitive_ok x then Normal tt
      else Throw (type_error "Cannot convert object to primitive value")
  | None => Normal tt
  end.

(** *** React children

    What a value in braces contributes to the text of an element: a string
    is its text, a number its decimal notation, a boolean, [null] and
    [undefined] nothing, an array what its items contribute, in order; a
    plain object is no child, and the render throws. *)
Definition invalid_child : js_error :=
  Err PlainError (lit "Objects are not valid as a React child") None.

Fixpoint child_text (v : json) : completion jsstring :=
  match v with
  | JNull => Normal []
  | JBool _ => Normal []
  | JNum n => Normal (number_to_string n)
  | JStr s => Normal s
  | JArr xs =>
      (fix children (l : list json) : completion jsstring :=
         match l with
         | [] => Normal []
         | x :: l' =>
             bind (child_text x) (fun a =>
             bind (children l') (fun b => Normal (a ++ b)))
         end) xs
  | JObj _ => Throw invalid_child
  end.

Definition child (v : value) : completion jsstring :=
  match v with
  | Some x => child_text x
  | None => Normal []
  end.

End JS.
Import JS.

(* ===================================================================== *)
(** ** [JSON.stringify] and [JSON.parse] *)
(* ===================================================================== *)

Module JSON.

(** *** Objects *)

Fixpoint decimal_value (acc : N) (s : jsstring) : option N :=
  match s with
  | [] => Some acc
  | c :: s' => if is_digit c then decimal_value (10 * acc + (c - 48)) s' else None
  end.

(** A property name is an array index when it is the canonical decimal of
    an integer below 2^32 - 1. *)
Definition array_index (k : jsstring) : option N :=
  match k with
  | [] => None
  | c :: k' =>
      if (c =? 48) && negb (match k' with [] => true | _ => false end) then None
      else if (10 <? N.of_nat (length k)) then None
      else match decimal_value 0 k with
           | Some n => if n <? 4294967295 then Some n else None
           | None => None
           end
  end.

(** Where a new index property goes: before the first property that is not
    an index or is a larger index. *)
Fixpoint insert_index (i : N) (k : jsstring) (v : json)
    (fs : list (jsstring * json)) : list (jsstring * json) :=
  match fs with
  | [] => [(k, v)]
  | (k', v') :: fs' =>
      match array_index k' with
      | Some j => if j <? i then (k', v') :: insert_index i k v fs'
                  else (k, v) :: fs
      | None => (k, v) :: fs
      end
  end.

Fixpoint replace_field (k : jsstring) (v : json)
    (fs : list (jsstring * json)) : list (jsstring * json) :=
  match fs with
  | [] => []
  | (k', v') :: fs' =>
      if str_eqb k k' then (k', v) :: fs' else (k', v') :: replace_field k v fs'
  end.

(** [CreateDataProperty(obj, k, v)] on the fields in property order: an
    existing property keeps its place and takes the new value; a new index
    property is placed among the indices, in ascending order; any other new
    property goes last. *)
Definition obj_set (k : jsstring) (v : json)
    (fs : list (jsstring * json)) : list (jsstring * json) :=
  match lookup_field k fs with
  | Some _ => replace_field k v fs
  | None =>
      match array_index k with
      | Some i => insert_index i k v fs
      | None => fs ++ [(k, v)]
      end
  end.

(** *** [JSON.stringify(v)] *)

Definition hex_digit (d : N) : N := if d <? 10 then 48 + d else 87 + d.

(** [UnicodeEscape]: [\uXXXX], lower-case hexadecimal. *)
Definition unicode_escape (c : N) : jsstring :=
  [92; 117; hex_digit (c / 4096 mod 16); hex_digit (c / 256 mod 16);
   hex_digit (c / 16 mod 16); hex_digit (c mod 16)].

(** One code point of [QuoteJSONString]. *)
Definition quote_code_point (c : N) : jsstring :=
  if c =? 8 then [92; 98]              (* \b *)
  else if c =? 9 then [92; 116]        (* \t *)
  else if c =? 10 then [92; 110]       (* \n *)
  else if c =? 12 then [92; 102]       (* \f *)
  else if c =? 13 then [92; 114]       (* \r *)
  else if c =? 34 then [92; 34]        (* escaped quote *)
  else if c =? 92 then [92; 92]        (* escaped backslash *)
  else if (c <? 32) || is_surrogate c then unicode_escape c
  else utf16_encode c.

(** [QuoteJSONString] *)
Definition quote (s : jsstring) : jsstring :=
  [34] ++ concat (List.map quote_code_point (code_points s)) ++ [34].

Fixpoint join (sep : jsstring) (parts : list jsstring) : jsstring :=
  match parts with
  | [] => []
  | [p] => p
  | p :: ps => p ++ sep ++ join sep ps
  end.

(** [SerializeJSONProperty], without replacer and without indentation. *)
Fixpoint stringify (v : json) : jsstring :=
  match v with
  | JNull => lit "null"
  | JBool true => lit "true"
  | JBool false => lit "false"
  | JNum (NumInfinity _) => lit "null"
  | JNum n => number_to_string n
  | JStr s => quote s
  | JArr xs => [91] ++ join [44] (List.map stringify xs) ++ [93]
  | JObj fs =>
      [123] ++
      join [44] (List.map (fun kv => quote (fst kv) ++ [58] ++ stringify (snd kv)) fs)
      ++ [125]
  end.

(** *** [JSON.parse(text)] *)

Definition is_ws (c : N) : bool :=
  (c =? 32) || (c =? 9) || (c =? 10) || (c =? 13).

Fixpoint skip_ws (s : jsstring) : jsstring :=
  match s with
  | c :: s' => if is_ws c then skip_ws s' else s
  | [] => []
  end.

Definition hex_value (c : N) : option N :=
  if is_digit c then Some (c - 48)
  else if (97 <=? c) && (c <=? 102) then Some (c - 87)
  else if (65 <=? c) && (c <=? 70) then Some (c - 55)
  else None.

(** The character a one-letter escape stands for. *)
Definition unescape (c : N) : option N :=
  if c =? 34 then Some 34
  else if c =? 92 then Some 92
  else if c =? 47 then Some 47
  else if c =? 98 then Some 8
  else if c =? 102 then Some 12
  else if c =? 110 then Some 10
  else if c =? 114 then Some 13
  else if c =? 116 then Some 9
  else None.

(** Where the scan of a string literal is: in plain text, just after a
    backslash, or inside a [\u] escape with [k] hexadecimal digits to go. *)
Inductive scan_state :=
| Plain
| Escaped
| Hex (k : nat) (acc : N).

Definition push (c : N) (r : option (jsstring * jsstring)) :
    option (jsstring * jsstring) :=
  match r with
  | Some (out, rest) => Some (c :: out, rest)
  | None => None
  end.

(** The characters of a string literal after its opening quote: the string
    it denotes and the text after its closing quote. *)
Fixpoint scan_string (st : scan_state) (s : jsstring) :
    option (jsstring * jsstring) :=
  match s with
  | [] => None
  | c :: s' =>
      match st with
      | Plain =>
          if c =? 34 then Some ([], s')
          else if c =? 92 then scan_string Escaped s'
          else if c <? 32 then None
          else push c (scan_string Plain s')
      | Escaped =>
          match unescape c with
          | Some d => push d (scan_string Plain s')
          | None => if c =? 117 then scan_string (Hex 3 0) s' else None
          end
      | Hex k acc =>
          match hex_value c with
          | None => None
          | Some h =>
              match k with
              | O => push (16 * acc + h) (scan_string Plain s')
              | S k' => scan_string (Hex k' (16 * acc + h)) s'
              end
          end
      end
  end.

Fixpoint span_digits (s : jsstring) : jsstring * jsstring :=
  match s with
  | c :: s' =>
      if is_digit c then let (ds, rest) := span_digits s' in (c :: ds, rest)
      else ([], s)
  | [] => ([], [])
  end.

(** The text after a given character, when the text starts with it. *)
Definition eat (c : N) (s : jsstring) : option jsstring :=
  match s with
  | x :: s' => if x =? c then Some s' else None
  | [] => None
  end.

(** The digits of a fraction or of an exponent: at least one. *)
Definition some_digits (s : jsstring) : option (jsstring * jsstring) :=
  match span_digits s with
  | ([], _) => None
  | (ds, rest) => Some (ds, rest)
  end.

(** A number literal: an optional minus, an integer part without a leading
    zero, an optional fraction, an optional exponent. Each scanner returns
    the characters it read and the text after them. *)
Definition scan_sign (s : jsstring) : jsstring * jsstring :=
  match eat 45 s with
  | Some s' => ([45], s')
  | None => ([], s)
  end.

Definition scan_int (s : jsstring) : option (jsstring * jsstring) :=
  match s with
  | c :: s' =>
      if c =? 48 then Some ([48], s')
      else if is_digit c then let (ds, rest) := span_digits s' in Some (c :: ds, rest)
      else None
  | [] => None
  end.

Definition scan_frac (s : jsstring) : option (jsstring * jsstring) :=
  match eat 46 s with
  | Some s' =>
      match some_digits s' with
      | Some (ds, rest) => Some (46 :: ds, rest)
      | None => None
      end
  | None => Some ([], s)
  end.

Definition scan_exp (s : jsstring) : option (jsstring * jsstring) :=
  match s with
  | e :: s' =>
      if (e =? 101) || (e =? 69) then
        let (esign, s'') :=
          match s' with
          | x :: t => if (x =? 43) || (x =? 45) then ([x], t) else ([], s')
          | [] => ([], s')
          end in
        match some_digits s'' with
        | Some (ds, rest) => Some (e :: esign ++ ds, rest)
        | None => None
        end
      else Some ([], s)
  | [] => Some ([], s)
  end.

Definition scan_number (s : jsstring) : option (jsstring * jsstring) :=
  let (sign, s1) := scan_sign s in
  match scan_int s1 with
  | None => None
  | Some (ip, s2) =>
      match scan_frac s2 with
      | None => None
      | Some (fp, s3) =>
          match scan_exp s3 with
          | None => None
          | Some (ep, s4) => Some (sign ++ ip ++ fp ++ ep, s4)
          end
      end
  end.

Inductive parsed (A : Type) :=
| Parsed (a : A) (rest : jsstring)
| Malformed
| OutOfFuel.
Arguments Parsed {A} a rest.
Arguments Malformed {A}.
Arguments OutOfFuel {A}.

Definition expect (word : jsstring) (v : json) (s : jsstring) : parsed json :=
  if startsWith word s then Parsed v (drop (length word) s) else Malformed.

(** The object a sequence of members builds, one [CreateDataProperty] after
    the other. *)
Definition object_of (members : list (jsstring * json)) : json :=
  JObj (fold_left (fun fs kv => obj_set (fst kv) (snd kv) fs) members []).

(** Recursive descent. [parse_value] reads one value after optional white
    space; [parse_elements] reads the elements of an array after its opening
    bracket or a comma, up to the closing bracket; [parse_members] does the
    same for the members of an object. Every call spends one unit of
    [fuel]. *)
Fixpoint parse_value (fuel : nat) (s : jsstring) : parsed json :=
  match fuel with
  | O => OutOfFuel
  | S fuel =>
      match skip_ws s with
      | [] => Malformed
      | c :: s' =>
          if c =? 123 then                                   (* { *)
            match eat 125 (skip_ws s') with
            | Some rest => Parsed (JObj []) rest
            | None =>
                match parse_members fuel s' with
                | Parsed ms rest => Parsed (object_of ms) rest
                | Malformed => Malformed
                | OutOfFuel => OutOfFuel
                end
            end
          else if c =? 91 then                               (* [ *)
            match eat 93 (skip_ws s') with
            | Some rest => Parsed (JArr []) rest
            | None =>
                match parse_elements fuel s' with
                | Parsed xs rest => Parsed (JArr xs) rest
                | Malformed => Malformed
                | OutOfFuel => OutOfFuel
                end
            end
          else if c =? 34 then                               (* string *)
            match scan_string Plain s' with
            | Some (str, rest) => Parsed (JStr str) rest
            | None => Malformed
            end
          else if c =? 116 then expect (lit "true") (JBool true) (c :: s')
          else if c =? 102 then expect (lit "false") (JBool false) (c :: s')
          else if c =? 110 then expect (lit "null") JNull (c :: s')
          else
            match scan_number (c :: s') with
            | Some (lexeme, rest) => Parsed (JNum (of_literal lexeme)) rest
            | None => Malformed
            end
      end
  end
with parse_elements (fuel : nat) (s : jsstring) : parsed (list json) :=
  match fuel with
  | O => OutOfFuel
  | S fuel =>
      match parse_value fuel s with
      | Parsed x rest =>
          match eat 93 (skip_ws rest) with                   (* ] *)
          | Some rest' => Parsed [x] rest'
          | None =>
              match eat 44 (skip_ws rest) with               (* , *)
              | Some rest' =>
                  match parse_elements fuel rest' with
                  | Parsed xs rest'' => Parsed (x :: xs) rest''
                  | Malformed => Malformed
                  | OutOfFuel => OutOfFuel
                  end
              | None => Malformed
              end
          end
      | Malformed => Malformed
      | OutOfFuel => OutOfFuel
      end
  end
with parse_members (fuel : nat) (s : jsstring) : parsed (list (jsstring * json)) :=
  match fuel with
  | O => OutOfFuel
  | S fuel =>
      match eat 34 (skip_ws s) with
      | None => Malformed
      | Some s' =>
          match scan_string Plain s' with
          | None => Malformed
          | Some (k, rest) =>
              match eat 58 (skip_ws rest) with               (* : *)
              | None => Malformed
              | Some rest' =>
                  match parse_value fuel rest' with
                  | Parsed v rest'' =>
                      match eat 125 (skip_ws rest'') with    (* } *)
                      | Some t => Parsed [(k, v)] t
                      | None =>
                          match eat 44 (skip_ws rest'') with (* , *)
                          | Some t =>
                              match parse_members fuel t with
                              | Parsed ms t' => Parsed ((k, v) :: ms) t'
                              | Malformed => Malformed
                              | OutOfFuel => OutOfFuel
                              end
                          | None => Malformed
                          end
                      end
                  | Malformed => Malformed
                  | OutOfFuel => OutOfFuel
                  end
              end
          end
      end
  end.

Definition syntax_error : js_error :=
  Err SyntaxError (lit "Unexpected token in JSON") None.

(** [JSON.parse(text)]: one value, white space around it, nothing else; a
    text that is not JSON throws a SyntaxError. The fuel is more than the
    parser can spend on the text (see [parse_value_fuel]). *)
Definition parse (text : jsstring) : completion json :=
  match parse_value (S (2 * length text)) text with
  | Parsed v rest =>
      match skip_ws rest with
      | [] => Normal v
      | _ => Throw syntax_error
      end
  | _ => Throw syntax_error
  end.

End JSON.

(* ===================================================================== *)
(** ** The component: [App.jsx] *)
(* ===================================================================== *)

Module App.

(** The five [useState] cells of [App] (lines 6-10). *)
Record AppState := mkApp {
  query : jsstring;
  results : json;
  loading : bool;
  error : json;
  searchHistory : json
}.

(** One call of [axios.get(url, { params })]. *)
Inductive http_method := GET | POST.

Record request := mkRequest {
  req_method : http_method;
  req_url : jsstring;
  req_params : list (jsstring * json)
}.

(** The component together with the part of the browser it touches. *)
Record World := mkWorld {
  component : AppState;
  localStorage : gmap jsstring jsstring;
  requests : list request
}.

(** [useState] initial values. *)
Definition initial_app : AppState :=
  {| query := []; results := JNull; loading := false; error := JNull;
     searchHistory := JArr [] |}.

Definition initial_world (store : gmap jsstring jsstring) : World :=
  {| component := initial_app; localStorage := store; requests := [] |}.

(** The setters. *)
Definition with_app (f : AppState -> AppState) (w : World) : World :=
  {| component := f (component w); localStorage := localStorage w; requests := requests w |}.

Definition setQuery (q : jsstring) : World -> World :=
  with_app (fun a => {| query := q; results := results a; loading := loading a;
                        error := error a; searchHistory := searchHistory a |}).
Definition setResults (r : json) : World -> World :=
  with_app (fun a => {| query := query a; results := r; loading := loading a;
                        error := error a; searchHistory := searchHistory a |}).
Definition setLoading (b : bool) : World -> World :=
  with_app (fun a => {| query := query a; results := results a; loading := b;
                        error := error a; searchHistory := searchHistory a |}).
Definition setError (e : json) : World -> World :=
  with_app (fun a => {| query := query a; results := results a; loading := loading a;
                        error := e; searchHistory := searchHistory a |}).
Definition setSearchHistory (h : json) : World -> World :=
  with_app (fun a => {| query := query a; results := results a; loading := loading a;
                        error := error a; searchHistory := h |}).

(** [localStorage.setItem(k, v)] and [localStorage.getItem(k)]. *)
Definition setItem (k v : jsstring) (w : World) : World :=
  {| component := component w; localStorage := <[k := v]> (localStorage w);
     requests := requests w |}.
Definition getItem (k : jsstring) (w : World) : option jsstring :=
  localStorage w !! k.

Definition issue (r : request) (w : World) : World :=
  {| component := component w; localStorage := localStorage w;
     requests := requests w ++ [r] |}.

Definition history_key : jsstring := lit "searchHistory".

(** *** The network *)

(** What the transport did with a request: it delivered a response, with
    its status and its body as axios hands it over ([response.data]), or it
    delivered none, with the description axios puts in [err.message]. *)
Inductive transport :=
| Delivered (st : N) (body : json)
| NoResponse (description : jsstring).

(** The decimal digits of a status code. *)
Definition status_text (st : N) : jsstring := decimal st.

(** [axios.get] settles by the default [validateStatus]: a delivered
    response resolves the promise when its status is 2xx and rejects it
    otherwise, the error carrying the response; no response rejects it with
    no [err.response]. *)
Definition is_2xx (st : N) : bool := (200 <=? st) && (st <? 300).

Definition axios_settle (t : transport) : completion axios_response :=
  match t with
  | Delivered st body =>
      if is_2xx st
      then Normal (Response st body)
      else Throw (Err AxiosError
                    (lit "Request failed with status code " ++ status_text st)
                    (Some (Response st body)))
  | NoResponse description => Throw (Err AxiosError description None)
  end.

(** *** [handleSubmit] (lines 19-45) *)

(** Lines 25-30: the request. *)
Definition search_url : jsstring := lit "http://localhost:8000/api/search_snow".

Definition search_request (q : jsstring) : request :=
  {| req_method := GET;
     req_url := search_url;
     req_params := [(lit "search_query", JStr q); (lit "max_results", num "100")] |}.

(** Line 32: [{ query, timestamp: new Date().toISOString() }]. *)
Definition history_entry (q now : jsstring) : json :=
  JObj [(lit "query", JStr q); (lit "timestamp", JStr now)].

(** An instant, as [toISOString] prints it, for the examples. *)
Definition noon : jsstring := lit "2025-05-09T12:00:00.000Z".

(** The history made of the entries for the given queries and times, and
    what makes such a pair a pair of strings. *)
Definition entries (qts : list (jsstring * jsstring)) : list json :=
  List.map (fun qt => history_entry (fst qt) (snd qt)) qts.

Definition entry_strings (qt : jsstring * jsstring) : Prop :=
  well_formed (fst qt) /\ well_formed (snd qt).

(** Lines 38-40: the message of the catch clause. *)
Definition errorMessage (err : js_error) : completion json :=
  match err_response err with
  | Some response =>
      bind (get (lit "error") (Some (data response))) (fun e =>
      Normal (or_else e (JStr (lit "An error occurred"))))
  | None => Normal (JStr (err_message err))
  end.

(** What a render closes over: [handleSubmit] reads [query] and
    [searchHistory] of the render it was created in. *)
Record closure := mkClosure { c_query : jsstring; c_history : json }.

(** Lines 20-25, up to the [await] ([e.preventDefault()] touches nothing
    the component reads). *)
Definition handleSubmit_begin (w : World) : closure * World :=
  let c := {| c_query := query (component w); c_history := searchHistory (component w) |} in
  let w := setLoading true w in
  let w := setError JNull w in
  (c, issue (search_request (c_query c)) w).

(** Lines 32-36: the rest of the [try] block once the request resolved. *)
Definition on_resolved (c : closure) (now : jsstring)
    (response : axios_response) (w : World) : World * completion unit :=
  match spread (c_history c) with
  | Throw e => (w, Throw e)
  | Normal old =>
      let newHistory := JArr (history_entry (c_query c) now :: old) in
      let w := setSearchHistory newHistory w in
      let w := setItem history_key (JSON.stringify newHistory) w in
      let w := setResults (data response) w in
      (w, Normal tt)
  end.

(** Lines 37-41. *)
Definition on_caught (err : js_error) (w : World) : World * completion unit :=
  match errorMessage err with
  | Normal m => (setError m w, Normal tt)
  | Throw e => (w, Throw e)
  end.

(** Lines 24-44 after the [await]: try, catch, finally. *)
Definition handleSubmit_resume (c : closure) (now : jsstring)
    (t : transport) (w : World) : World * completion unit :=
  let tried :=
    match axios_settle t with
    | Normal response => on_resolved c now response w
    | Throw err => (w, Throw err)
    end in
  let caught :=
    match tried with
    | (w, Normal u) => (w, Normal u)
    | (w, Throw err) => on_caught err w
    end in
  (setLoading false (fst caught), snd caught).

(** One whole submission: the handler runs to the [await], the transport
    answers with [t], and the handler runs to its end at time [now] (the
    text [new Date().toISOString()] gives then). The submit button is
    disabled while [loading] holds (line 69), so no other submission runs in
    between. *)
Definition handleSubmit (t : transport) (now : jsstring) (w : World) :
    World * completion unit :=
  let (c, w1) := handleSubmit_begin w in
  handleSubmit_resume c now t w1.

(** *** The history effect (lines 12-17) *)

Definition loadHistory (w : World) : World * completion unit :=
  match getItem history_key w with
  | None => (w, Normal tt)                    (* getItem gave null *)
  | Some [] => (w, Normal tt)                 (* the empty string is falsy *)
  | Some savedHistory =>
      match JSON.parse savedHistory with
      | Normal h => (setSearchHistory h w, Normal tt)
      | Throw e => (w, Throw e)
      end
  end.

(** *** What is rendered (lines 53-122)

    The function body builds the element tree: the guards and the two maps
    are evaluated there, where a property read or the conversion of a date
    or of a key may throw.  React then takes the children of the elements,
    and throws on a plain object among them.  Either way the render fails,
    and React takes the whole component off the page. *)

(** Line 75: [error && ...]. *)
Definition error_shown (a : AppState) : bool := truthy (Some (error a)).

(** Line 77: [results && results.success && results.data]. A truthy value
    is not [null], so the property reads cannot throw. *)
Definition table_shown (a : AppState) : bool :=
  truthy (Some (results a)) &&
  match get (lit "success") (Some (results a)) with
  | Normal s =>
      truthy s &&
      match get (lit "data") (Some (results a)) with
      | Normal d => truthy d
      | Throw _ => false
      end
  | Throw _ => false
  end.

(** The value of the guard of line 77 when the table is not shown: the
    first falsy operand, which React takes as a child in place of the
    table. *)
Definition table_guard (a : AppState) : value :=
  if truthy (Some (results a)) then
    match get (lit "success") (Some (results a)) with
    | Normal s =>
        if truthy s then
          match get (lit "data") (Some (results a)) with
          | Normal d => d
          | Throw _ => None
          end
        else s
    | Throw _ => None
    end
  else Some (results a).

(** Lines 47-51: [formatDate].  A falsy argument gives the empty string;
    any other goes through [new Date(dateString)], which converts an object
    to a primitive first, and [toLocaleString], whose text is the locale's
    and is not modelled: the argument stands for it. *)
Inductive date_text :=
| NoDate
| LocaleString (dateString : json).

Definition formatDate (dateString : value) : completion date_text :=
  match dateString with
  | Some v =>
      if truthy dateString
      then bind (to_primitive dateString) (fun _ => Normal (LocaleString v))
      else Normal NoDate
  | None => Normal NoDate
  end.

(** Line 99: [record.assigned_to?.display_value || 'Unassigned']. *)
Definition assigned_to_cell (record : json) : completion json :=
  bind (get (lit "assigned_to") (Some record)) (fun assigned_to =>
  bind (get_opt (lit "display_value") assigned_to) (fun display_value =>
  Normal (or_else display_value (JStr (lit "Unassigned"))))).

(** What the cell of line 99 shows: React's text of that value. *)
Definition assigned_to_text (record : json) : completion jsstring :=
  bind (assigned_to_cell record) child_text.

(** Lines 94-100: the five cells of a row, as the values in the braces. *)
Record row := mkRow {
  cell_number : value;
  cell_description : value;
  cell_state : value;
  cell_opened : date_text;
  cell_assigned : json
}.

(** The element of one record: the children are evaluated in order, then
    the key, [record.number], is converted to a string (an [undefined] key
    is no key). *)
Definition render_row (record : json) : completion row :=
  bind (get (lit "number") (Some record)) (fun number =>
  bind (get (lit "short_description") (Some record)) (fun description =>
  bind (get (lit "state") (Some record)) (fun state =>
  bind (get (lit "opened_at") (Some record)) (fun opened_at =>
  bind (formatDate opened_at) (fun opened =>
  bind (assigned_to_cell record) (fun assigned =>
  bind (to_primitive number) (fun _ =>
  Normal (mkRow number description state opened assigned)))))))).

Fixpoint map_rows (records : list json) : completion (list row) :=
  match records with
  | [] => Normal []
  | r :: rs =>
      bind (render_row r) (fun x =>
      bind (map_rows rs) (fun xs => Normal (x :: xs)))
  end.

(** Line 93: [results.data.map(...)], when the table is shown: the rows as
    the function body builds them. *)
Definition table_elements (a : AppState) : completion (list row) :=
  if table_shown a then
    match get (lit "data") (Some (results a)) with
    | Normal (Some (JArr records)) => map_rows records
    | Normal _ => Throw (type_error "results.data.map is not a function")
    | Throw e => Throw e
    end
  else Normal [].

(** The children of the cells, as React takes them (the date cell holds a
    string). *)
Definition row_children (r : row) : completion unit :=
  bind (child (cell_number r)) (fun _ =>
  bind (child (cell_description r)) (fun _ =>
  bind (child (cell_state r)) (fun _ =>
  bind (child_text (cell_assigned r)) (fun _ =>
  Normal tt)))).

Fixpoint rows_children (rows : list row) : completion unit :=
  match rows with
  | [] => Normal tt
  | r :: rs => bind (row_children r) (fun _ => rows_children rs)
  end.

(** The rows of the table, rendered. *)
Definition render_rows (a : AppState) : completion (list row) :=
  bind (table_elements a) (fun rows =>
  bind (rows_children rows) (fun _ =>
  Normal rows)).

(** *** The request state of the specification

    The component has no state enumeration: the specification's
    [RequestState] is read off the three cells. *)
Inductive RequestState :=
| Idle
| Loading
| Success (payload : json)
| Failed (message : json).

Definition request_state (a : AppState) : RequestState :=
  if loading a then Loading
  else match error a with
       | JNull =>
           match results a with
           | JNull => Idle
           | r => Success r
           end
       | m => Failed m
       end.

(** *** The history list (lines 110-117)

    [searchHistory.map(...)]: each item gives its [query] and, for the
    date, its [timestamp], which [new Date] converts (the locale text of
    the date is left out). Only an array has [map]. *)
Definition history_item (item : json) : completion value :=
  bind (get (lit "query") (Some item)) (fun q =>
  bind (get (lit "timestamp") (Some item)) (fun timestamp =>
  bind (to_primitive timestamp) (fun _ =>
  Normal q))).

Fixpoint map_items (items : list json) : completion (list value) :=
  match items with
  | [] => Normal []
  | i :: rest =>
      bind (history_item i) (fun x =>
      bind (map_items rest) (fun xs => Normal (x :: xs)))
  end.

Definition history_elements (a : AppState) : completion (list value) :=
  match searchHistory a with
  | JArr items => map_items items
  | JNull => Throw (type_error "Cannot read properties of null")
  | _ => Throw (type_error "searchHistory.map is not a function")
  end.

Fixpoint items_children (items : list value) : completion unit :=
  match items with
  | [] => Normal tt
  | q :: rest => bind (child q) (fun _ => items_children rest)
  end.

(** The queries of the history list, rendered. *)
Definition render_history (a : AppState) : completion (list value) :=
  bind (history_elements a) (fun items =>
  bind (items_children items) (fun _ =>
  Normal items)).

(** *** The whole render

    What the page shows below the form: the error message, the table and
    the history list.  A guarded element is shown, or its guard's falsy
    value is the child ([null], [false] and the empty string show nothing,
    the number zero shows as 0). *)
Inductive slot (A : Type) :=
| Shown (a : A)
| Bare (v : value).
Arguments Shown {A} a.
Arguments Bare {A} v.

Record view := mkView {
  view_error : slot json;
  view_table : slot (list row);
  view_history : list value
}.

Definition error_slot (a : AppState) : slot json :=
  if error_shown a then Shown (error a) else Bare (Some (error a)).

(** The function body: lines 75, 77-105 and 110-117, in this order. *)
Definition elements (a : AppState) : completion view :=
  bind (table_elements a) (fun rows =>
  bind (history_elements a) (fun items =>
  Normal {| view_error := error_slot a;
            view_table := if table_shown a then Shown rows else Bare (table_guard a);
            view_history := items |})).

(** React taking the children, in the order of the tree; a guard's falsy
    value is never an object. *)
Definition slot_child (s : slot json) : completion unit :=
  match s with
  | Shown e => bind (child_text e) (fun _ => Normal tt)
  | Bare _ => Normal tt
  end.

Definition children (v : view) : completion unit :=
  bind (slot_child (view_error v)) (fun _ =>
  bind (match view_table v with
        | Shown rows => rows_children rows
        | Bare _ => Normal tt
        end) (fun _ =>
  items_children (view_history v))).

Definition render (a : AppState) : completion view :=
  bind (elements a) (fun v =>
  bind (children v) (fun _ =>
  Normal v)).

(** *** What can be rendered

    The conditions on a history item and on a record under which the maps
    of lines 110 and 93 and React's reading of their children go through;
    they are compared with [render_history] and [render_rows] in the
    proofs. *)
Definition item_renders (i : json) : Prop :=
  i <> JNull /\
  (forall q, get (lit "query") (Some i) = Normal q -> exists text, child q = Normal text) /\
  (forall t, get (lit "timestamp") (Some i) = Normal t -> to_primitive t = Normal tt).

Definition record_renders (r : json) : Prop :=
  r <> JNull /\
  (forall x, get (lit "number") (Some r) = Normal x ->
     (exists text, child x = Normal text) /\ to_primitive x = Normal tt) /\
  (forall x, get (lit "short_description") (Some r) = Normal x ->
     exists text, child x = Normal text) /\
  (forall x, get (lit "state") (Some r) = Normal x -> exists text, child x = Normal text) /\
  (forall x, get (lit "opened_at") (Some r) = Normal x -> exists d, formatDate x = Normal d) /\
  (exists text, assigned_to_text r = Normal text).

(** *** A session

    What happens to the component, one event after the other: the user
    types in the input (line 65, [setQuery(e.target.value)]), submits the
    form (line 60) and the transport answers, or loads the page again, which
    mounts a fresh component over the same storage and runs the history
    effect. *)
Inductive event :=
| Typed (text : jsstring)
| Submitted (t : transport) (now : jsstring)
| Reloaded.

Definition step (w : World) (e : event) : World :=
  match e with
  | Typed text => setQuery text w
  | Submitted t now => fst (handleSubmit t now w)
  | Reloaded => fst (loadHistory (initial_world (localStorage w)))
  end.

Definition run (es : list event) (w : World) : World := fold_left step es w.

(** The strings an event brings in are strings. *)
Definition event_strings (e : event) : Prop :=
  match e with
  | Typed text => well_formed text
  | Submitted _ now => well_formed now
  | Reloaded => True
  end.

(** The submissions of a session whose request resolved, the latest first,
    each with the query it was made for and its time; [q] is the text in the
    input and [log] what was recorded before. *)
Fixpoint recorded (es : list event) (q : jsstring)
    (log : list (jsstring * jsstring)) : list (jsstring * jsstring) :=
  match es with
  | [] => log
  | Typed text :: es' => recorded es' text log
  | Submitted t now :: es' =>
      recorded es' q
        (match axios_settle t with
         | Normal _ => (q, now) :: log
         | Throw _ => log
         end)
  | Reloaded :: es' => recorded es' [] log
  end.

(** What a session keeps true: the history in memory is the sequence of the
    entries recorded so far, the text in the input is a string, and the
    storage slot is absent while nothing was recorded and holds the
    serialization of the history afterwards. *)
Definition in_session (w : World) (q : jsstring)
    (log : list (jsstring * jsstring)) : Prop :=
  query (component w) = q /\
  well_formed q /\
  Forall entry_strings log /\
  searchHistory (component w) = JArr (entries log) /\
  localStorage w !! history_key =
    match log with
    | [] => None
    | _ => Some (JSON.stringify (JArr (entries log)))
    end.

End App.

(* ===================================================================== *)
(** ** The development server: [vite.config.ts] *)
(* ===================================================================== *)

Module Vite.

(** *** The proxy rule (lines 13-21) *)

(** [server.port] and the proxy's [target]. *)
Definition dev_origin : jsstring := lit "http://localhost:3000".
Definition proxy_target : jsstring := lit "http://localhost:8000".

(** [rewrite: (path) => path.replace(/^\/api/, '')] *)
Definition proxy_rewrite (path : jsstring) : jsstring :=
  if startsWith (lit "/api") path then drop 4 path else path.

(** The text of a URL up to the path ([scheme://authority]) and the path
    that follows. *)
Fixpoint until_slash (s : jsstring) : jsstring * jsstring :=
  match s with
  | [] => ([], [])
  | c :: s' =>
      if c =? 47 then ([], s)
      else let (a, p) := until_slash s' in (c :: a, p)
  end.

Definition split_url (url : jsstring) : option (jsstring * jsstring) :=
  let scheme :=
    if startsWith (lit "http://") url then Some (lit "http://")
    else if startsWith (lit "https://") url then Some (lit "https://")
    else None in
  match scheme with
  | Some sch =>
      let (authority, path) := until_slash (drop (length sch) url) in
      Some (sch ++ authority, path)
  | None => None
  end.

(** *** [new URL(reference, 'http://localhost:3000').href]

    The URL Standard's parser, for the references it resolves on the base
    without reading a host from them: a reference with no scheme, or with
    the base's scheme and no authority ([resolve_on_base]).  What the parser
    makes of a reference with another scheme or with an authority of its
    own, a URL elsewhere or a TypeError, is a parameter of [href]. *)

(** A lone surrogate becomes U+FFFD when the string is converted to scalar
    values. *)
Definition scalar_values (s : jsstring) : list N :=
  List.map (fun c => if is_surrogate c then 0xFFFD else c) (code_points s).

Fixpoint drop_leading_c0_space (s : list N) : list N :=
  match s with
  | c :: s' => if c <=? 32 then drop_leading_c0_space s' else s
  | [] => []
  end.

Definition is_tab_or_newline (c : N) : bool :=
  (c =? 9) || (c =? 10) || (c =? 13).

(** Steps 1-3 of the parser: strip leading and trailing C0 control or
    space, remove tabs and newlines. *)
Definition clean (s : list N) : list N :=
  List.filter (fun c => negb (is_tab_or_newline c))
    (rev (drop_leading_c0_space (rev (drop_leading_c0_space s)))).

Definition is_alpha (c : N) : bool :=
  ((65 <=? c) && (c <=? 90)) || ((97 <=? c) && (c <=? 122)).
Definition to_lower (c : N) : N :=
  if (65 <=? c) && (c <=? 90) then c + 32 else c.
Definition is_scheme_char (c : N) : bool :=
  is_alpha c || is_digit c || (c =? 43) || (c =? 45) || (c =? 46).

(** Scheme state: the characters up to a colon, lower-cased, when they all
    are scheme characters. *)
Fixpoint scheme_state (s : list N) : option (jsstring * list N) :=
  match s with
  | [] => None
  | c :: s' =>
      if c =? 58 then Some ([], s')
      else if is_scheme_char c then
        match scheme_state s' with
        | Some (sch, rest) => Some (to_lower c :: sch, rest)
        | None => None
        end
      else None
  end.

(** Scheme start state. *)
Definition scheme_of (s : list N) : option (jsstring * list N) :=
  match s with
  | c :: _ => if is_alpha c then scheme_state s else None
  | [] => None
  end.

(** The percent-encode sets. *)
Definition c0_control_set (c : N) : bool := (c <=? 0x1F) || (0x7E <? c).
Definition fragment_set (c : N) : bool :=
  c0_control_set c || (c =? 32) || (c =? 34) || (c =? 60) || (c =? 62) || (c =? 96).
Definition query_set (c : N) : bool :=
  c0_control_set c || (c =? 32) || (c =? 34) || (c =? 35) || (c =? 60) || (c =? 62).
Definition special_query_set (c : N) : bool := query_set c || (c =? 39).
Definition path_set (c : N) : bool :=
  query_set c || (c =? 63) || (c =? 96) || (c =? 123) || (c =? 125).

Definition utf8_encode (cp : N) : list N :=
  if cp <? 0x80 then [cp]
  else if cp <? 0x800 then [0xC0 + cp / 64; 0x80 + cp mod 64]
  else if cp <? 0x10000 then
    [0xE0 + cp / 4096; 0x80 + cp / 64 mod 64; 0x80 + cp mod 64]
  else
    [0xF0 + cp / 262144; 0x80 + cp / 4096 mod 64; 0x80 + cp / 64 mod 64;
     0x80 + cp mod 64].

Definition upper_hex_digit (d : N) : N := if d <? 10 then 48 + d else 55 + d.

Definition percent_encode_byte (b : N) : jsstring :=
  [37; upper_hex_digit (b / 16); upper_hex_digit (b mod 16)].

(** UTF-8 percent-encode a code point using a percent-encode set. *)
Definition percent_encode (set : N -> bool) (cp : N) : jsstring :=
  if set cp then concat (List.map percent_encode_byte (utf8_encode cp))
  else utf16_encode cp.

(** The parts of the URL record the serializer reads after the origin. *)
Record url_record := mkUrl {
  url_path : list jsstring;
  url_query : option jsstring;
  url_fragment : option jsstring
}.

(** The base: [http://localhost:3000], whose path is one empty segment. *)
Definition base_url : url_record :=
  {| url_path := [[]]; url_query := None; url_fragment := None |}.

Definition lower (s : jsstring) : jsstring := List.map to_lower s.

Definition is_single_dot (buffer : jsstring) : bool :=
  str_eqb buffer (lit ".") || str_eqb (lower buffer) (lit "%2e").
Definition is_double_dot (buffer : jsstring) : bool :=
  str_eqb buffer (lit "..") || str_eqb (lower buffer) (lit ".%2e") ||
  str_eqb (lower buffer) (lit "%2e.") || str_eqb (lower buffer) (lit "%2e%2e").

(** Shorten a path: drop its last segment, if any. *)
Definition shorten (path : list jsstring) : list jsstring := removelast path.

(** Path state at the end of a segment; [at_slash] says whether the
    segment was ended by a slash or a backslash. *)
Definition end_segment (path : list jsstring) (buffer : jsstring)
    (at_slash : bool) : list jsstring :=
  if is_double_dot buffer then
    if at_slash then shorten path else shorten path ++ [[]]
  else if is_single_dot buffer then
    if at_slash then path else path ++ [[]]
  else path ++ [buffer].

(** Fragment state. *)
Definition fragment_state (s : list N) : jsstring :=
  concat (List.map (percent_encode fragment_set) s).

(** Query state, for a special scheme. *)
Fixpoint query_state (path : list jsstring) (buffer : jsstring) (s : list N) :
    url_record :=
  match s with
  | [] => mkUrl path (Some buffer) None
  | c :: s' =>
      if c =? 35 then mkUrl path (Some buffer) (Some (fragment_state s'))
      else query_state path (buffer ++ percent_encode special_query_set c) s'
  end.

(** Path state, for a special scheme. *)
Fixpoint path_state (path : list jsstring) (buffer : jsstring) (s : list N) :
    url_record :=
  match s with
  | [] => mkUrl (end_segment path buffer false) None None
  | c :: s' =>
      if (c =? 47) || (c =? 92) then path_state (end_segment path buffer true) [] s'
      else if c =? 63 then query_state (end_segment path buffer false) [] s'
      else if c =? 35 then
        mkUrl (end_segment path buffer false) None (Some (fragment_state s'))
      else path_state path (buffer ++ percent_encode path_set c) s'
  end.

(** Relative state and relative slash state against [base_url]; [None]
    where an authority follows. *)
Definition relative_state (s : list N) : option url_record :=
  match s with
  | [] => Some base_url
  | c :: s' =>
      if (c =? 47) || (c =? 92) then
        match s' with
        | d :: _ =>
            if (d =? 47) || (d =? 92) then None
            else Some (path_state [] [] s')
        | [] => Some (path_state [] [] s')
        end
      else if c =? 63 then Some (query_state (url_path base_url) [] s')
      else if c =? 35 then
        Some (mkUrl (url_path base_url) (url_query base_url)
                    (Some (fragment_state s')))
      else Some (path_state (shorten (url_path base_url)) [] s)
  end.

(** The URL serializer, on the base's origin. *)
Definition serialize (u : url_record) : jsstring :=
  dev_origin ++
  concat (List.map (fun seg => [47] ++ seg) (url_path u)) ++
  match url_query u with Some q => [63] ++ q | None => [] end ++
  match url_fragment u with Some f => [35] ++ f | None => [] end.

(** The reference resolved on the base; [None] when it brings a scheme
    other than the base's or an authority. *)
Definition resolve_on_base (reference : jsstring) : option jsstring :=
  let s := clean (scalar_values reference) in
  let parsed :=
    match scheme_of s with
    | None => relative_state s
    | Some (scheme, rest) =>
        if str_eqb scheme (lit "http") then relative_state rest else None
    end in
  match parsed with
  | Some u => Some (serialize u)
  | None => None
  end.

(** *** The background-image rewrite (lines 26-44) *)

Definition is_line_terminator (c : N) : bool :=
  (c =? 10) || (c =? 13) || (c =? 0x2028) || (c =? 0x2029).

Definition is_quote (c : N) : bool := (c =? 39) || (c =? 34).

(** The lazy run and what follows it, with the first group bound to [q]: the shortest run of
    characters other than line terminators that is followed by [q] and a
    closing parenthesis, and the text after that parenthesis. *)
Fixpoint lazy_find (q : jsstring) (t : jsstring) : option (jsstring * jsstring) :=
  if startsWith (q ++ [41]) t then Some ([], drop (length q + 1) t)
  else
    match t with
    | [] => None
    | c :: t' =>
        if is_line_terminator c then None
        else match lazy_find q t' with
             | Some (u, rest) => Some (c :: u, rest)
             | None => None
             end
    end.

(** A match of the pattern of line 32 ([url(], an optional quote, a lazy
    run, the same quote, [)]) at the start of [s]: the quote group, the
    reference group and the text after the match. The optional
    quote is tried first; when no closing counterpart is found the group
    backtracks to the empty string. *)
Definition match_url (s : jsstring) : option (jsstring * jsstring * jsstring) :=
  if startsWith (lit "url(") s then
    let t := drop 4 s in
    let unquoted :=
      match lazy_find [] t with
      | Some (u, rest) => Some ([], u, rest)
      | None => None
      end in
    match t with
    | c :: t' =>
        if is_quote c then
          match lazy_find [c] t' with
          | Some (u, rest) => Some ([c], u, rest)
          | None => unquoted
          end
        else unquoted
    | [] => unquoted
    end
  else None.

(** The text a match covers. *)
Definition matched (quote url : jsstring) : jsstring :=
  lit "url(" ++ quote ++ url ++ quote ++ lit ")".

Record decl := mkDecl { prop : jsstring; decl_value : jsstring }.

(** The declaration value as a sequence of [url(...)] tokens, each with the
    text before it, and a last stretch of text: the reading of a value that
    the specification has in mind.  It is not in the source, which only has
    the pattern; the two are compared in the proofs. *)
Record token := mkToken {
  before : jsstring;        (* the text between the previous token and this one *)
  quote_of : jsstring;      (* empty, one single quote or one double quote *)
  reference : jsstring      (* what stands between the quotes *)
}.

Section Transform.

(** [new URL(reference, 'http://localhost:3000').href] for a reference that
    brings a scheme other than [http] or an authority: the URL it denotes,
    or the TypeError of a reference that is no URL. *)
Variable absolute_href : jsstring -> completion jsstring.

Definition href (reference : jsstring) : completion jsstring :=
  match resolve_on_base reference with
  | Some h => Normal h
  | None => absolute_href reference
  end.

(** Lines 33-38: the replacer. *)
Definition replacer (quote url : jsstring) : completion jsstring :=
  if negb (startsWith (lit "data:") url) && negb (startsWith (lit "http") url)
  then bind (href url) (fun h => Normal (lit "url(" ++ quote ++ h ++ quote ++ lit ")"))
  else Normal (matched quote url).

(** [value.replace(/.../g, replacer)]: the text is read from left to right;
    at a match the replacement is emitted and the [skip] counter steps over
    the rest of the matched text; any other character is copied. *)
Fixpoint replace_from (skip : nat) (s : jsstring) : completion jsstring :=
  match s with
  | [] => Normal []
  | c :: s' =>
      match skip with
      | S k => replace_from k s'
      | O =>
          match match_url s with
          | Some (q, u, _) =>
              bind (replacer q u) (fun r =>
              bind (replace_from (length (matched q u) - 1) s') (fun out =>
              Normal (r ++ out)))
          | None => bind (replace_from 0 s') (fun out => Normal (c :: out))
          end
      end
  end.

(** Lines 30-40: the body of the [walkDecls] callback. *)
Definition rewrite_value (value : jsstring) : completion jsstring :=
  if includes (lit "url") value then replace_from 0 value else Normal value.

(** [css.walkDecls('background-image', ...)] *)
Definition rewrite_decl (d : decl) : completion decl :=
  if str_eqb (prop d) (lit "background-image") then
    bind (rewrite_value (decl_value d)) (fun v => Normal (mkDecl (prop d) v))
  else Normal d.

Fixpoint OnceExit (css : list decl) : completion (list decl) :=
  match css with
  | [] => Normal []
  | d :: ds =>
      bind (rewrite_decl d) (fun d' =>
      bind (OnceExit ds) (fun ds' => Normal (d' :: ds')))
  end.

(** Every token rewritten on its own by the replacer, the text around the
    tokens kept. *)
Fixpoint rewritten_text (tokens : list token) (tail : jsstring) : completion jsstring :=
  match tokens with
  | [] => Normal tail
  | t :: ts =>
      bind (replacer (quote_of t) (reference t)) (fun r =>
      bind (rewritten_text ts tail) (fun out =>
      Normal (before t ++ r ++ out)))
  end.

End Transform.

(** For the examples, none of which brings a scheme or a host of its own:
    the parser that takes no such reference. *)
Definition invalid_url (reference : jsstring) : completion jsstring :=
  Throw (type_error "Invalid URL").

(** *** The declaration value as a sequence of tokens *)

Definition source_text (tokens : list token) (tail : jsstring) : jsstring :=
  concat (List.map (fun t => before t ++ matched (quote_of t) (reference t)) tokens)
  ++ tail.

(** A token the pattern reads as it is written: the reference has no
    closing parenthesis and no line terminator, the quote is empty or one
    quote character, and an unquoted reference does not begin with a quote
    character; the text before it holds no [url(]. *)
Definition plain_reference (u : jsstring) : bool :=
  forallb (fun c => negb (c =? 41) && negb (is_line_terminator c)) u.

Definition plain_quote (q u : jsstring) : bool :=
  match q with
  | [] => match u with c :: _ => negb (is_quote c) | [] => true end
  | [c] => is_quote c
  | _ => false
  end.

Definition plain_token (t : token) : bool :=
  negb (includes (lit "url(") (before t)) &&
  plain_reference (reference t) &&
  plain_quote (quote_of t) (reference t).

(** *** What the resolution leaves in a reference

    A code point that may stand in a reference: a Unicode code point other
    than the closing parenthesis; and a URL record whose parts hold no
    closing parenthesis and no line terminator. *)
Definition safe_code_point (c : N) : Prop := c < 0x110000 /\ c <> 41.

Definition plain_url (u : url_record) : bool :=
  forallb plain_reference (url_path u) &&
  match url_query u with Some q => plain_reference q | None => true end &&
  match url_fragment u with Some f => plain_reference f | None => true end.

End Vite.

(* ===================================================================== *)
(** ** The query lifecycle *)
(* ===================================================================== *)

Import App.

Section Submission.

Variables (t : transport) (now : jsstring) (w : World).

(** The four ways through [handleSubmit]. *)

Lemma handleSubmit_resolved response old :
  axios_settle t = Normal response ->
  spread (searchHistory (component w)) = Normal old ->
  handleSubmit t now w =
    (let newHistory := JArr (history_entry (query (component w)) now :: old) in
     {| component := {| query := query (component w); results := data response;
                  loading := false; error := JNull;
                  searchHistory := newHistory |};
        localStorage := <[history_key := JSON.stringify newHistory]> (localStorage w);
        requests := requests w ++ [search_request (query (component w))] |},
     Normal tt).
Proof.
  intros Hs Hh. unfold handleSubmit, handleSubmit_begin, handleSubmit_resume.
  rewrite Hs. unfold on_resolved. cbn. rewrite Hh. reflexivity.
Qed.

Lemma handleSubmit_not_iterable response e :
  axios_settle t = Normal response ->
  spread (searchHistory (component w)) = Throw e ->
  handleSubmit t now w =
    ({| component := {| query := query (component w); results := results (component w);
                  loading := false; error := JStr (err_message e);
                  searchHistory := searchHistory (component w) |};
        localStorage := localStorage w;
        requests := requests w ++ [search_request (query (component w))] |},
     Normal tt).
Proof.
  intros Hs Hh. unfold handleSubmit, handleSubmit_begin, handleSubmit_resume.
  rewrite Hs. unfold on_resolved. cbn. rewrite Hh.
  assert (He : err_response e = None).
  { destruct (searchHistory (component w)); cbn in Hh; inversion Hh; reflexivity. }
  unfold on_caught, errorMessage. rewrite He. reflexivity.
Qed.

Lemma handleSubmit_caught err m :
  axios_settle t = Throw err ->
  errorMessage err = Normal m ->
  handleSubmit t now w =
    ({| component := {| query := query (component w); results := results (component w);
                  loading := false; error := m;
                  searchHistory := searchHistory (component w) |};
        localStorage := localStorage w;
        requests := requests w ++ [search_request (query (component w))] |},
     Normal tt).
Proof.
  intros Hs Hm. unfold handleSubmit, handleSubmit_begin, handleSubmit_resume.
  rewrite Hs. unfold on_caught. rewrite Hm. reflexivity.
Qed.

Lemma handleSubmit_catch_throws err e :
  axios_settle t = Throw err ->
  errorMessage err = Throw e ->
  handleSubmit t now w =
    ({| component := {| query := query (component w); results := results (component w);
                  loading := false; error := JNull;
                  searchHistory := searchHistory (component w) |};
        localStorage := localStorage w;
        requests := requests w ++ [search_request (query (component w))] |},
     Throw e).
Proof.
  intros Hs Hm. unfold handleSubmit, handleSubmit_begin, handleSubmit_resume.
  rewrite Hs. unfold on_caught. rewrite Hm. reflexivity.
Qed.

(** The handler goes through [Loading]: that is the state at the [await]. *)
Lemma handleSubmit_begin_loading :
  request_state (component (snd (handleSubmit_begin w))) = Loading.
Proof. reflexivity. Qed.

(** The [finally] clause: whatever the transport did, and also when the
    catch clause itself throws, the loading flag is cleared. *)
Lemma handleSubmit_clears_loading :
  loading (component (fst (handleSubmit t now w))) = false.
Proof. reflexivity. Qed.

End Submission.

(** What the catch clause computes. *)

Lemma or_else_not_null v d : d <> JNull -> or_else v d <> JNull.
Proof.
  intros Hd. unfold or_else. destruct v as [x|]; [|exact Hd].
  destruct (truthy (Some x)) eqn:E; [|exact Hd].
  intros ->. discriminate E.
Qed.

Lemma errorMessage_no_response k m :
  errorMessage (Err k m None) = Normal (JStr m).
Proof. reflexivity. Qed.

Lemma errorMessage_response k m st body :
  body <> JNull ->
  errorMessage (Err k m (Some (Response st body))) =
    Normal (or_else (match body with JObj fs => lookup_field (lit "error") fs | _ => None end)
                    (JStr (lit "An error occurred"))).
Proof. intros Hb. destruct body; try reflexivity. contradiction. Qed.

Lemma errorMessage_null_body k m st :
  errorMessage (Err k m (Some (Response st JNull))) =
    Throw (type_error "Cannot read properties of null").
Proof. reflexivity. Qed.

Lemma errorMessage_not_null err m : errorMessage err = Normal m -> m <> JNull.
Proof.
  destruct err as [k msg [[st body]|]]; cbn.
  - destruct body; cbn; intros H; inversion H; subst; clear H;
      try discriminate; apply or_else_not_null; discriminate.
  - intros H; inversion H; discriminate.
Qed.

Lemma request_state_failed a :
  loading a = false -> error a <> JNull -> request_state a = Failed (error a).
Proof.
  unfold request_state. intros -> He. destruct (error a); congruence.
Qed.

Lemma request_state_success a :
  loading a = false -> error a = JNull -> results a <> JNull ->
  request_state a = Success (results a).
Proof.
  unfold request_state. intros -> -> Hr. destruct (results a); congruence.
Qed.

(** Unless the body of the response is [null], a submission ends in
    [Success] or in [Failed]. *)
Lemma handleSubmit_settles t now w h :
  searchHistory (component w) = JArr h ->
  (forall st, t <> Delivered st JNull) ->
  let a := component (fst (handleSubmit t now w)) in
  (exists payload, request_state a = Success payload) \/
  (exists message, request_state a = Failed message).
Proof.
  intros Hh Hbody.
  destruct (axios_settle t) as [response|err] eqn:Hs.
  - rewrite (handleSubmit_resolved t now w response h Hs) by (rewrite Hh; reflexivity).
    cbv zeta. cbn [fst component]. left. exists (data response).
    apply (request_state_success (mkApp _ _ _ _ _)); cbn; try reflexivity.
    destruct t as [st body|d]; cbn in Hs; [|discriminate].
    destruct (is_2xx st); inversion Hs; subst; cbn.
    intros ->. exact (Hbody st eq_refl).
  - destruct (errorMessage err) as [m|e] eqn:Hm.
    + rewrite (handleSubmit_caught t now w err m Hs Hm). cbn [fst component].
      right. exists m.
      apply (request_state_failed (mkApp _ _ _ _ _)); cbn; [reflexivity|].
      exact (errorMessage_not_null err m Hm).
    + exfalso. destruct t as [st body|d]; cbn in Hs.
      * destruct (is_2xx st); inversion Hs; subst; clear Hs.
        destruct body; cbn in Hm; try discriminate.
        exact (Hbody st eq_refl).
      * inversion Hs; subst. discriminate Hm.
Qed.

(** A rejected request whose response has the body [null]: the catch
    clause throws, no error is set, nothing else moves. *)
Lemma handleSubmit_null_body st now w :
  is_2xx st = false ->
  handleSubmit (Delivered st JNull) now w =
    ({| component := {| query := query (component w);
                        results := results (component w);
                        loading := false; error := JNull;
                        searchHistory := searchHistory (component w) |};
        localStorage := localStorage w;
        requests := requests w ++ [search_request (query (component w))] |},
     Throw (type_error "Cannot read properties of null")).
Proof.
  intros Hst.
  apply (handleSubmit_catch_throws _ now w
           (Err AxiosError (lit "Request failed with status code " ++ status_text st)
                (Some (Response st JNull)))).
  - cbn. rewrite Hst. reflexivity.
  - reflexivity.
Qed.

(** C1 (the claim fails on the code). A request answered with status 500
    and the JSON body [null] makes the catch clause throw while it reads
    [err.response.data.error]: the [finally] clause still clears the loading
    flag, but no error is recorded and no result is held, so the component
    is back in [Idle], neither in [Success] nor in [Failed], and the handler
    ends by throwing. *)
Theorem C1_null_error_body_ends_idle :
  let r := handleSubmit (Delivered 500 JNull) noon (initial_world ∅) in
  loading (component (fst r)) = false /\
  request_state (component (fst r)) = Idle /\
  snd r = Throw (type_error "Cannot read properties of null").
Proof. repeat split. Qed.

(** *** History (C2) *)

(** C2 (the claim as stated fails). A response delivered with status 200
    whose body reports that the query failed - success flag false and an
    error field, the specification's application-level failure - still puts
    the entry in front of the history and writes it to the storage slot:
    this failed submission does not leave the history unchanged. *)
Lemma C2_counterexample :
  let body := JObj [(lit "success", JBool false);
                    (lit "error", JStr (lit "Invalid query"))] in
  let w := setQuery (lit "open") (initial_world ∅) in
  let w' := fst (handleSubmit (Delivered 200 body) noon w) in
  lookup_field (lit "success") [(lit "success", JBool false);
                                (lit "error", JStr (lit "Invalid query"))]
    = Some (JBool false) /\
  has_field (lit "error") body = true /\
  table_shown (component w') = false /\
  searchHistory (component w) = JArr [] /\
  searchHistory (component w') = JArr [history_entry (lit "open") noon] /\
  searchHistory (component w') <> searchHistory (component w) /\
  getItem history_key w = None /\
  getItem history_key w'
    = Some (JSON.stringify (JArr [history_entry (lit "open") noon])).
Proof.
  repeat split; try reflexivity; discriminate.
Qed.

(** C2 (amended). What decides is whether the request resolves, that is,
    whether a response with a 2xx status is delivered, whatever its body
    says. A submission whose request resolves puts exactly one new entry,
    for the submitted query and the current time, in front of the history,
    the earlier entries following in their order, and writes the serialized
    new sequence to the storage slot; a submission whose request is rejected
    (another status, or no response) leaves the history in memory and the
    whole storage as they were. The history gains the entry if and only if
    the request resolved. *)
Theorem C2_history_entry_iff_resolved
    (t : transport) (now : jsstring) (w : World) (h : list json) :
  searchHistory (component w) = JArr h ->
  let w' := fst (handleSubmit t now w) in
  let entry := history_entry (query (component w)) now in
  ((exists response, axios_settle t = Normal response) ->
     searchHistory (component w') = JArr (entry :: h) /\
     localStorage w' =
       <[history_key := JSON.stringify (JArr (entry :: h))]> (localStorage w) /\
     getItem history_key w' = Some (JSON.stringify (JArr (entry :: h)))) /\
  ((forall response, axios_settle t <> Normal response) ->
     searchHistory (component w') = JArr h /\ localStorage w' = localStorage w) /\
  (searchHistory (component w') = JArr (entry :: h) <->
     exists response, axios_settle t = Normal response).
Proof.
  intros Hh w' entry.
  assert (Hsp : spread (searchHistory (component w)) = Normal h) by (rewrite Hh; reflexivity).
  destruct (axios_settle t) as [response|err] eqn:Hs.
  - pose proof (handleSubmit_resolved t now w response h Hs Hsp) as E.
    subst w'. rewrite E. cbn [fst component searchHistory localStorage getItem].
    cbv zeta. split; [|split].
    + intros _. split; [reflexivity|]. split; [reflexivity|].
      apply lookup_insert_eq.
    + intros Hn. exfalso. exact (Hn response eq_refl).
    + split; [intros _; eauto | reflexivity].
  - assert (E : searchHistory (component w') = JArr h /\ localStorage w' = localStorage w).
    { subst w'. destruct (errorMessage err) as [m|e] eqn:Hm.
      - rewrite (handleSubmit_caught t now w err m Hs Hm). cbn. auto.
      - rewrite (handleSubmit_catch_throws t now w err e Hs Hm). cbn. auto. }
    destruct E as [E1 E2]. split; [|split].
    + intros [response Hr]. discriminate Hr.
    + intros _. auto.
    + rewrite E1. split.
      * intros Heq. exfalso. inversion Heq as [Hl].
        apply (f_equal (@length json)) in Hl. cbn in Hl. lia.
      * intros [response Hr]. discriminate Hr.
Qed.

Lemma C2_history_entry_iff_resolved_witness :
  let w := initial_world ∅ in
  let t := Delivered 200 (JObj [(lit "success", JBool true); (lit "data", JArr [])]) in
  searchHistory (component w) = JArr [] /\
  searchHistory (component (fst (handleSubmit t noon w))) = JArr [history_entry [] noon].
Proof.
  split; [reflexivity|].
  apply (C2_history_entry_iff_resolved
           (Delivered 200 (JObj [(lit "success", JBool true); (lit "data", JArr [])]))
           noon (initial_world ∅) [] eq_refl).
  eexists. reflexivity.
Defined.

(** *** Errors (C3, C10) *)




(** C10 (the claim fails on the code). A response delivered with a non-2xx
    status and the body [null] is a failed submission whose body has no
    error field, and no message is placed at all: the catch clause throws
    while it reads [err.response.data.error], the error cell stays [null],
    the state is not [Failed], and the handler ends by throwing. It is the
    defect of C1, met from the side of the message. *)
Theorem C10_null_body_places_no_message (st : N) (now : jsstring) (w : World) :
  is_2xx st = false ->
  let r := handleSubmit (Delivered st JNull) now w in
  has_field (lit "error") JNull = false /\
  error (component (fst r)) = JNull /\
  (forall m, request_state (component (fst r)) <> Failed m) /\
  snd r = Throw (type_error "Cannot read properties of null").
Proof.
  intros Hst r. subst r. rewrite (handleSubmit_null_body st now w Hst).
  cbn [fst snd component error]. repeat split.
  intros m. unfold request_state. cbn [loading error results].
  destruct (results (component w)); discriminate.
Qed.

Lemma C10_null_body_places_no_message_witness :
  is_2xx 500 = false /\
  error (component (fst (handleSubmit (Delivered 500 JNull) noon (initial_world ∅))))
    = JNull /\
  snd (handleSubmit (Delivered 500 JNull) noon (initial_world ∅))
    = Throw (type_error "Cannot read properties of null").
Proof.
  split; [reflexivity|].
  pose proof (C10_null_body_places_no_message 500 noon (initial_world ∅) eq_refl) as H.
  cbv zeta in H. destruct H as (_ & H2 & _ & H4). split; [exact H2|exact H4].
Defined.

(** X18. When a response was delivered with a non-2xx status and its body
    has no error field, the only message the submission can leave in
    [Failed] is the literal 'An error occurred', and for every body other
    than [null] it does leave it; that literal is not axios's description
    of the failure. [err.message] is the message when no response was
    delivered, and with a response it plays no part. *)
Theorem default_error_message
    (st : N) (body : json) (now : jsstring) (w : World) :
  is_2xx st = false ->
  has_field (lit "error") body = false ->
  let w' := fst (handleSubmit (Delivered st body) now w) in
  let default := JStr (lit "An error occurred") in
  (body <> JNull -> request_state (component w') = Failed default) /\
  (forall m, request_state (component w') = Failed m -> m = default) /\
  default <> JStr (lit "Request failed with status code " ++ status_text st) /\
  (forall description w0,
     error (component (fst (handleSubmit (NoResponse description) now w0)))
       = JStr description) /\
  (forall k m1 m2 response,
     errorMessage (Err k m1 (Some response)) = errorMessage (Err k m2 (Some response))).
Proof.
  intros Hst Hf w' default.
  set (err := Err AxiosError
                (lit "Request failed with status code " ++ status_text st)
                (Some (Response st body))).
  assert (Hs : axios_settle (Delivered st body) = Throw err)
    by (cbn; rewrite Hst; reflexivity).
  assert (Hdef : body <> JNull -> errorMessage err = Normal default).
  { intros Hb. unfold err. rewrite errorMessage_response by exact Hb.
    destruct body; try reflexivity. unfold has_field in Hf.
    destruct (lookup_field (lit "error") fields); [discriminate|reflexivity]. }
  assert (Hfailed : body <> JNull -> request_state (component w') = Failed default).
  { intros Hb. subst w'. rewrite (handleSubmit_caught _ now w err default Hs (Hdef Hb)).
    reflexivity. }
  split; [exact Hfailed|]. split; [|split; [|split]].
  - intros m Hm.
    assert (Hn : body = JNull \/ body <> JNull)
      by (destruct body; (left; reflexivity) || (right; discriminate)).
    destruct Hn as [Hn|Hb].
    + exfalso. subst w' body.
      rewrite (handleSubmit_catch_throws _ now w err _ Hs (errorMessage_null_body _ _ _)) in Hm.
      cbn in Hm. destruct (results (component w)); discriminate Hm.
    + rewrite (Hfailed Hb) in Hm. congruence.
  - discriminate.
  - intros description w0.
    rewrite (handleSubmit_caught (NoResponse description) now w0
               (Err AxiosError description None) (JStr description) eq_refl eq_refl).
    reflexivity.
  - reflexivity.
Qed.

Lemma default_error_message_witness :
  let body := JObj [(lit "detail", JStr (lit "Not Found"))] in
  is_2xx 404 = false /\
  has_field (lit "error") body = false /\
  request_state (component (fst (handleSubmit (Delivered 404 body) noon (initial_world ∅))))
    = Failed (JStr (lit "An error occurred")).
Proof.
  split; [reflexivity|]. split; [reflexivity|].
  apply (proj1 (default_error_message 404
                  (JObj [(lit "detail", JStr (lit "Not Found"))])
                  noon (initial_world ∅) eq_refl eq_refl)).
  discriminate.
Defined.

(** *** The request (C6) *)

(** C6 (the claim as stated fails). The one request a submission of the
    query [x] issues goes to the path [/api/search_snow] of the origin
    [http://localhost:8000], not to [/search_snow]: it is addressed to the
    proxy's target itself, not to the development server, whose proxy rule
    is the one that would strip [/api]. *)
Lemma C6_counterexample :
  let w := setQuery (lit "x") (initial_world ∅) in
  let w' := fst (handleSubmit (Delivered 200 (JObj [])) noon w) in
  requests w' = [search_request (lit "x")] /\
  Vite.split_url (req_url (search_request (lit "x")))
    = Some (lit "http://localhost:8000", lit "/api/search_snow") /\
  lit "/api/search_snow" <> lit "/search_snow" /\
  lit "http://localhost:8000" <> Vite.dev_origin.
Proof. repeat split; discriminate. Qed.

(** C6 (amended). Every submission of a query [q] issues exactly one
    request: a GET to [http://localhost:8000/api/search_snow], that is the
    path [/api/search_snow] on the backend origin, with exactly the
    parameters [search_query = q] and [max_results = 100]. *)
Theorem C6_one_get_request
    (q : jsstring) (t : transport) (now : jsstring) (w : World) :
  let w' := fst (handleSubmit t now (setQuery q w)) in
  requests w' =
    requests w ++
    [ {| req_method := GET;
         req_url := lit "http://localhost:8000/api/search_snow";
         req_params := [(lit "search_query", JStr q);
                        (lit "max_results", num "100")] |} ] /\
  Vite.split_url (lit "http://localhost:8000/api/search_snow")
    = Some (Vite.proxy_target, lit "/api/search_snow").
Proof.
  split; [|reflexivity].
  unfold handleSubmit, handleSubmit_begin, handleSubmit_resume.
  destruct (axios_settle t) as [response|err].
  - unfold on_resolved. cbn [c_history c_query].
    destruct (spread _); [reflexivity|].
    unfold on_caught. destruct (errorMessage e); reflexivity.
  - unfold on_caught. destruct (errorMessage err); reflexivity.
Qed.

(** *** The failure path (C9) *)

Section Render.

(** What the render reads of the state. *)
Lemma table_shown_results a a' : results a' = results a -> table_shown a' = table_shown a.
Proof. unfold table_shown. intros ->. reflexivity. Qed.

Lemma table_guard_results a a' : results a' = results a -> table_guard a' = table_guard a.
Proof. unfold table_guard. intros ->. reflexivity. Qed.

Lemma table_elements_results a a' :
  results a' = results a -> table_elements a' = table_elements a.
Proof. unfold table_elements, table_shown. intros ->. reflexivity. Qed.

Lemma render_rows_results a a' : results a' = results a -> render_rows a' = render_rows a.
Proof. unfold render_rows. intros H. rewrite (table_elements_results a a' H). reflexivity. Qed.

Lemma history_elements_history a a' :
  searchHistory a' = searchHistory a -> history_elements a' = history_elements a.
Proof. unfold history_elements. intros ->. reflexivity. Qed.

(** A value that is no child is truthy: line 75 hands it to React. *)
Lemma child_text_throws_truthy v e : child_text v = Throw e -> truthy (Some v) = true.
Proof. destruct v as [| |[]| | |]; cbn; try discriminate; reflexivity. Qed.

Lemma error_child_Normal a text :
  child_text (error a) = Normal text -> slot_child (error_slot a) = Normal tt.
Proof.
  intros H. unfold error_slot. destruct (error_shown a); [|reflexivity].
  cbn [slot_child]. rewrite H. reflexivity.
Qed.

Lemma error_child_Throw a e :
  child_text (error a) = Throw e -> slot_child (error_slot a) = Throw e.
Proof.
  intros H. unfold error_slot, error_shown.
  rewrite (child_text_throws_truthy _ _ H). cbn [slot_child]. rewrite H. reflexivity.
Qed.

(** A render that succeeded, taken again with another error cell. *)
Lemma render_other_error a a' v :
  results a' = results a -> searchHistory a' = searchHistory a ->
  render a = Normal v ->
  render a' =
    bind (slot_child (error_slot a')) (fun _ =>
    Normal {| view_error := error_slot a';
              view_table := view_table v;
              view_history := view_history v |}).
Proof.
  intros Hr Hh. unfold render, elements.
  rewrite (table_elements_results a a' Hr), (history_elements_history a a' Hh),
          (table_shown_results a a' Hr), (table_guard_results a a' Hr).
  destruct (table_elements a) as [rows|]; cbn [bind]; [|discriminate].
  destruct (history_elements a) as [items|]; cbn [bind]; [|discriminate].
  unfold children. cbn [view_error view_table view_history].
  destruct (slot_child (error_slot a)) as [[]|]; cbn [bind]; [|discriminate].
  destruct (slot_child (error_slot a')) as [[]|]; cbn [bind]; [|reflexivity].
  destruct (match (if table_shown a then Shown rows else Bare (table_guard a)) with
            | Shown rows0 => rows_children rows0
            | Bare _ => Normal tt
            end) as [[]|]; cbn [bind]; [|discriminate].
  destruct (items_children items) as [[]|]; cbn [bind]; [|discriminate].
  intros [= <-]. reflexivity.
Qed.

(** What a render that succeeds is made of. *)
Lemma table_elements_hidden a : table_shown a = false -> table_elements a = Normal [].
Proof. unfold table_elements. intros ->. reflexivity. Qed.

Lemma render_rows_hidden a : table_shown a = false -> render_rows a = Normal [].
Proof. unfold render_rows. intros H. rewrite (table_elements_hidden a H). reflexivity. Qed.

Lemma render_parts a v :
  render a = Normal v ->
  render_rows a = Normal (match view_table v with Shown rows => rows | Bare _ => [] end) /\
  slot_child (error_slot a) = Normal tt /\
  render_history a = Normal (view_history v).
Proof.
  unfold render, elements, render_rows, render_history.
  destruct (table_elements a) as [rows|] eqn:Et; cbn [bind]; [|discriminate].
  destruct (history_elements a) as [items|]; cbn [bind]; [|discriminate].
  unfold children. cbn [view_error view_table view_history].
  destruct (slot_child (error_slot a)) as [[]|]; cbn [bind]; [|discriminate].
  destruct (table_shown a) eqn:Es.
  - destruct (rows_children rows) as [[]|]; cbn [bind]; [|discriminate].
    destruct (items_children items) as [[]|]; cbn [bind]; [|discriminate].
    intros [= <-]. cbn. auto.
  - rewrite (table_elements_hidden a Es) in Et. inversion Et; subst.
    cbn [bind rows_children].
    destruct (items_children items) as [[]|]; cbn [bind]; [|discriminate].
    intros [= <-]. cbn. auto.
Qed.

Lemma render_defined a :
  (exists v, render a = Normal v) <->
  (exists rows, render_rows a = Normal rows) /\
  slot_child (error_slot a) = Normal tt /\
  (exists items, render_history a = Normal items).
Proof.
  split.
  - intros [v Hv]. apply render_parts in Hv as (H1 & H2 & H3). eauto.
  - intros ([rows Hr] & He & [items Hi]).
    unfold render, elements, render_rows, render_history in *.
    destruct (table_elements a) as [rows'|] eqn:Et; cbn [bind] in *; [|discriminate].
    destruct (history_elements a) as [items'|]; cbn [bind] in *; [|discriminate].
    unfold children. cbn [view_error view_table view_history]. rewrite He. cbn [bind].
    destruct (rows_children rows') as [[]|] eqn:Er; cbn [bind] in *; [|discriminate].
    destruct (items_children items') as [[]|] eqn:Ei; cbn [bind] in *; [|discriminate].
    destruct (table_shown a); rewrite ?Er; cbn [bind view_history]; rewrite ?Ei;
      cbn [bind]; eauto.
Qed.

End Render.

(** C9 (the claim as stated fails). The last submission left a table on the
    page; the next one is answered with status 500 and a body whose error
    field is an object. The catch clause keeps the result payload and sets
    that object as the error; line 75 hands it to React as a child, the
    render throws, and the table is no longer displayed. *)
Lemma C9_counterexample :
  let shown := JObj [(lit "success", JBool true);
                     (lit "data", JArr [JObj [(lit "number", JStr (lit "CHG0001"))]])] in
  let w := setResults shown (initial_world ∅) in
  let t := Delivered 500 (JObj [(lit "error", JObj [(lit "code", JStr (lit "E42"))])]) in
  let w' := fst (handleSubmit t noon w) in
  render (component w) =
    Normal {| view_error := Bare (Some JNull);
              view_table := Shown [mkRow (Some (JStr (lit "CHG0001"))) None None NoDate
                                         (JStr (lit "Unassigned"))];
              view_history := [] |} /\
  results (component w') = shown /\
  error (component w') = JObj [(lit "code", JStr (lit "E42"))] /\
  render (component w') = Throw invalid_child.
Proof. repeat split. Qed.

(** C9 (amended). When the catch clause runs - the request was rejected, or
    the history could not be spread - the submission changes no cell but
    the error and the loading flag: the result payload, the query, the
    history and the storage are as before, and the rows of the table are
    those of the last successful submission. The table remains displayed
    when React can take the new error as a child, as it can every string
    (the transport's description and the literal are strings): the page
    then shows the same table and the same history with the new message.
    An error field of the response body that is an object, or an array
    holding one, is set as the error as it is, and then the render throws. *)
Theorem C9_failure_keeps_results
    (t : transport) (now : jsstring) (w : World) :
  (exists err, axios_settle t = Throw err) \/
  (exists e, spread (searchHistory (component w)) = Throw e) ->
  let w' := fst (handleSubmit t now w) in
  results (component w') = results (component w) /\
  query (component w') = query (component w) /\
  searchHistory (component w') = searchHistory (component w) /\
  localStorage w' = localStorage w /\
  loading (component w') = false /\
  table_shown (component w') = table_shown (component w) /\
  render_rows (component w') = render_rows (component w) /\
  (forall v text,
     render (component w) = Normal v ->
     child_text (error (component w')) = Normal text ->
     render (component w') =
       Normal {| view_error := error_slot (component w');
                 view_table := view_table v;
                 view_history := view_history v |}) /\
  (forall v e,
     render (component w) = Normal v ->
     child_text (error (component w')) = Throw e ->
     render (component w') = Throw e) /\
  (forall s, child_text (JStr s) = Normal s).
Proof.
  intros H w'.
  assert (E : exists e, component w' = {| query := query (component w); results := results (component w);
                                    loading := false; error := e;
                                    searchHistory := searchHistory (component w) |}
                        /\ localStorage w' = localStorage w).
  { subst w'. destruct (axios_settle t) as [response|err] eqn:Hs.
    - destruct H as [[err Herr]|[e He]]; [discriminate Herr|].
      rewrite (handleSubmit_not_iterable t now w response e Hs He). cbn. eauto.
    - destruct (errorMessage err) as [m|e] eqn:Hm.
      + rewrite (handleSubmit_caught t now w err m Hs Hm). cbn. eauto.
      + rewrite (handleSubmit_catch_throws t now w err e Hs Hm). cbn. eauto. }
  destruct E as [e [Ea El]].
  assert (Hr : results (component w') = results (component w)) by (rewrite Ea; reflexivity).
  assert (Hh : searchHistory (component w') = searchHistory (component w))
    by (rewrite Ea; reflexivity).
  split; [exact Hr|]. split; [rewrite Ea; reflexivity|]. split; [exact Hh|].
  split; [exact El|]. split; [rewrite Ea; reflexivity|].
  split; [exact (table_shown_results _ _ Hr)|].
  split; [exact (render_rows_results _ _ Hr)|].
  split; [|split; [|reflexivity]].
  - intros v text Hv Ht.
    rewrite (render_other_error _ _ v Hr Hh Hv), (error_child_Normal _ text Ht).
    reflexivity.
  - intros v e' Hv Ht.
    rewrite (render_other_error _ _ v Hr Hh Hv), (error_child_Throw _ e' Ht).
    reflexivity.
Qed.

Lemma C9_failure_keeps_results_witness :
  let shown := JObj [(lit "success", JBool true);
                     (lit "data", JArr [JObj [(lit "number", JStr (lit "CHG0001"))]])] in
  let w := setResults shown (initial_world ∅) in
  (exists err, axios_settle (NoResponse (lit "Network Error")) = Throw err) /\
  results (component (fst (handleSubmit (NoResponse (lit "Network Error")) noon w))) = shown /\
  table_shown (component (fst (handleSubmit (NoResponse (lit "Network Error")) noon w))) = true.
Proof.
  split; [eexists; reflexivity|].
  pose proof (C9_failure_keeps_results (NoResponse (lit "Network Error")) noon
    (setResults (JObj [(lit "success", JBool true);
                       (lit "data", JArr [JObj [(lit "number", JStr (lit "CHG0001"))]])])
                (initial_world ∅))
    (or_introl (ex_intro _ _ eq_refl))) as H.
  cbv zeta in H. destruct H as (H1 & _ & _ & _ & _ & H6 & _).
  split; [exact H1 | rewrite H6; reflexivity].
Defined.

(** *** The assigned-to cell (C8) *)

(** C8 (the claim as stated fails). A record whose [assigned_to] object is
    present but has an empty [display_value] renders 'Unassigned'. *)
Lemma C8_counterexample :
  let record := JObj [(lit "number", JStr (lit "CHG0001"));
                      (lit "assigned_to", JObj [(lit "display_value", JStr [])])] in
  has_field (lit "assigned_to") record = true /\
  assigned_to_cell record = Normal (JStr (lit "Unassigned")) /\
  assigned_to_cell record <> Normal (JStr []) /\
  assigned_to_text record = Normal (lit "Unassigned").
Proof. repeat split. discriminate. Qed.

(** C8 (amended). For a record object, the assigned-to cell shows the
    [display_value] of [assigned_to] when [assigned_to] is an object whose
    [display_value] is a string other than the empty one; it shows the
    literal 'Unassigned' when [assigned_to] is missing or [null], when it is
    not an object, and when it is an object whose [display_value] is missing
    or falsy (the empty string, zero, [false], [null]). With any other
    truthy [display_value] the cell holds that value, and shows of it what
    React shows of a child: the decimal notation of a number, nothing of
    [true], and for an object the render throws. *)
Theorem C8_assigned_to_cell (fields : list (jsstring * json)) :
  let cell := assigned_to_cell (JObj fields) in
  let text := assigned_to_text (JObj fields) in
  let assigned_to := lookup_field (lit "assigned_to") fields in
  let unassigned := Normal (JStr (lit "Unassigned")) in
  (forall afs s,
     assigned_to = Some (JObj afs) ->
     lookup_field (lit "display_value") afs = Some (JStr s) ->
     s <> [] ->
     cell = Normal (JStr s) /\ text = Normal s) /\
  (assigned_to = None \/ assigned_to = Some JNull ->
     cell = unassigned /\ text = Normal (lit "Unassigned")) /\
  (forall a, assigned_to = Some a -> (forall afs, a <> JObj afs) ->
     cell = unassigned /\ text = Normal (lit "Unassigned")) /\
  (forall afs,
     assigned_to = Some (JObj afs) ->
     truthy (lookup_field (lit "display_value") afs) = false ->
     cell = unassigned /\ text = Normal (lit "Unassigned")) /\
  (forall afs d,
     assigned_to = Some (JObj afs) ->
     lookup_field (lit "display_value") afs = Some d ->
     truthy (Some d) = true ->
     cell = Normal d /\ text = child_text d) /\
  (forall n, child_text (JNum n) = Normal (number_to_string n)) /\
  child_text (JBool true) = Normal [] /\
  (forall o, child_text (JObj o) = Throw invalid_child).
Proof.
  intros cell text assigned_to unassigned. subst cell text unassigned.
  unfold assigned_to_text, assigned_to_cell. cbn [get bind]. fold assigned_to.
  assert (Htruthy : forall afs d,
            assigned_to = Some (JObj afs) ->
            lookup_field (lit "display_value") afs = Some d ->
            truthy (Some d) = true ->
            bind (get_opt (lit "display_value") assigned_to)
              (fun display_value =>
                 Normal (or_else display_value (JStr (lit "Unassigned")))) = Normal d).
  { intros afs d -> Hd Ht. cbn [get_opt get bind]. rewrite Hd.
    unfold or_else. rewrite Ht. reflexivity. }
  split; [|split; [|split; [|split; [|split; [|repeat split]]]]].
  - intros afs s Ha Hd Hs.
    rewrite (Htruthy afs (JStr s) Ha Hd) by (destruct s; [contradiction|reflexivity]).
    split; reflexivity.
  - intros [-> | ->]; split; reflexivity.
  - intros a -> Ha. destruct a; try (split; reflexivity).
    exfalso. exact (Ha fields0 eq_refl).
  - intros afs -> Ht. cbn [get_opt get bind]. unfold or_else.
    destruct (lookup_field (lit "display_value") afs) as [d|]; [|split; reflexivity].
    rewrite Ht. split; reflexivity.
  - intros afs d Ha Hd Ht. rewrite (Htruthy afs d Ha Hd Ht). split; reflexivity.
Qed.

Lemma C8_assigned_to_cell_witness :
  let fields := [(lit "number", JStr (lit "CHG0001"));
                 (lit "assigned_to", JObj [(lit "display_value", JStr (lit "J. Doe"))])] in
  lookup_field (lit "assigned_to") fields
    = Some (JObj [(lit "display_value", JStr (lit "J. Doe"))]) /\
  lit "J. Doe" <> [] /\
  assigned_to_text (JObj fields) = Normal (lit "J. Doe").
Proof.
  split; [reflexivity|]. split; [discriminate|].
  apply (proj1 (C8_assigned_to_cell
                  [(lit "number", JStr (lit "CHG0001"));
                   (lit "assigned_to", JObj [(lit "display_value", JStr (lit "J. Doe"))])])
           [(lit "display_value", JStr (lit "J. Doe"))] (lit "J. Doe")
           eq_refl eq_refl ltac:(discriminate)).
Defined.

(* ===================================================================== *)
(** ** The history log: serialization round trip *)
(* ===================================================================== *)

Section Strings.

Import JSON.

Ltac div_mod_lia :=
  Zify.zify; Z.to_euclidean_division_equations; lia.

Lemma hex_digit_value d : d < 16 -> hex_value (hex_digit d) = Some d.
Proof.
  intros H.
  assert (E : d = 0 \/ d = 1 \/ d = 2 \/ d = 3 \/ d = 4 \/ d = 5 \/ d = 6 \/ d = 7 \/
              d = 8 \/ d = 9 \/ d = 10 \/ d = 11 \/ d = 12 \/ d = 13 \/ d = 14 \/ d = 15)
    by lia.
  repeat (destruct E as [->|E]; [reflexivity|]). subst. reflexivity.
Qed.

Lemma hex_digits_value c :
  c < 65536 ->
  16 * (16 * (16 * (16 * 0 + c / 4096 mod 16) + c / 256 mod 16) + c / 16 mod 16)
    + c mod 16 = c.
Proof. intros H. div_mod_lia. Qed.

Lemma utf16_pair hi lo :
  is_lead hi = true -> is_trail lo = true ->
  utf16_encode (pair_code_point hi lo) = [hi; lo].
Proof.
  unfold is_lead, is_trail, utf16_encode, pair_code_point. intros H1 H2.
  apply andb_true_iff in H1 as [H1 H1'], H2 as [H2 H2'].
  apply N.leb_le in H1, H1', H2, H2'.
  destruct (_ <? 65536) eqn:E.
  - apply N.ltb_lt in E. lia.
  - f_equal; [|f_equal]; div_mod_lia.
Qed.

(** The scanner reads a [\u] escape back to the code unit it stands for. *)
Lemma scan_unicode_escape c tail :
  code_unit c ->
  scan_string Plain (unicode_escape c ++ tail) = push c (scan_string Plain tail).
Proof.
  intros Hc. unfold unicode_escape. cbn [app scan_string].
  change (92 =? 34) with false. change (92 =? 92) with true.
  change (unescape 117) with (@None N). change (117 =? 117) with true.
  cbn match.
  rewrite !hex_digit_value by (apply N.mod_lt; discriminate).
  rewrite hex_digits_value by exact Hc. reflexivity.
Qed.

(** A character that needs no escape is read as itself. *)
Lemma scan_plain c tail :
  (c =? 34) = false -> (c =? 92) = false -> (c <? 32) = false ->
  scan_string Plain (c :: tail) = push c (scan_string Plain tail).
Proof. intros H1 H2 H3. cbn [scan_string]. rewrite H1, H2, H3. reflexivity. Qed.

(** One code unit that is a code point of its own. *)
Lemma scan_quote_unit c tail :
  code_unit c ->
  scan_string Plain (quote_code_point c ++ tail) = push c (scan_string Plain tail).
Proof.
  intros Hc. unfold quote_code_point.
  destruct (c =? 8) eqn:E8; [apply N.eqb_eq in E8; subst; reflexivity|].
  destruct (c =? 9) eqn:E9; [apply N.eqb_eq in E9; subst; reflexivity|].
  destruct (c =? 10) eqn:E10; [apply N.eqb_eq in E10; subst; reflexivity|].
  destruct (c =? 12) eqn:E12; [apply N.eqb_eq in E12; subst; reflexivity|].
  destruct (c =? 13) eqn:E13; [apply N.eqb_eq in E13; subst; reflexivity|].
  destruct (c =? 34) eqn:E34; [apply N.eqb_eq in E34; subst; reflexivity|].
  destruct (c =? 92) eqn:E92; [apply N.eqb_eq in E92; subst; reflexivity|].
  destruct ((c <? 32) || is_surrogate c) eqn:E.
  - apply scan_unicode_escape. exact Hc.
  - apply orb_false_iff in E as [E _]. unfold utf16_encode.
    replace (c <? 65536) with true by (symmetry; apply N.ltb_lt; exact Hc).
    apply scan_plain; assumption.
Qed.

(** A surrogate pair, written out as it is. *)
Lemma scan_quote_pair hi lo tail :
  is_lead hi = true -> is_trail lo = true ->
  scan_string Plain (quote_code_point (pair_code_point hi lo) ++ tail)
    = push hi (push lo (scan_string Plain tail)).
Proof.
  intros Hhi Hlo.
  assert (Hp : 65536 <= pair_code_point hi lo) by (unfold pair_code_point; lia).
  unfold quote_code_point.
  repeat match goal with
         | |- context [pair_code_point hi lo =? ?k] =>
             replace (pair_code_point hi lo =? k) with false
               by (symmetry; apply N.eqb_neq; lia)
         end.
  replace ((pair_code_point hi lo <? 32) || is_surrogate (pair_code_point hi lo))
    with false.
  2:{ symmetry. apply orb_false_iff. split; [apply N.ltb_ge; lia|].
      unfold is_surrogate. apply andb_false_iff. right. apply N.leb_gt. lia. }
  rewrite utf16_pair by assumption. cbn [app].
  unfold is_lead in Hhi. unfold is_trail in Hlo.
  apply andb_true_iff in Hhi as [Hhi _], Hlo as [Hlo _].
  apply N.leb_le in Hhi, Hlo.
  rewrite scan_plain;
    [|apply N.eqb_neq; lia|apply N.eqb_neq; lia|apply N.ltb_ge; lia].
  rewrite scan_plain;
    [|apply N.eqb_neq; lia|apply N.eqb_neq; lia|apply N.ltb_ge; lia].
  reflexivity.
Qed.

Lemma code_points_two c d s :
  code_points (c :: d :: s) =
    if is_lead c && is_trail d then pair_code_point c d :: code_points s
    else c :: code_points (d :: s).
Proof. reflexivity. Qed.

(** The scanner reads the body of a quoted string back to the string. *)
Lemma scan_quoted_body s : forall tail,
  well_formed s ->
  scan_string Plain (concat (List.map quote_code_point (code_points s)) ++ 34 :: tail)
    = Some (s, tail).
Proof.
  remember (length s) as n eqn:Hn. revert s Hn.
  induction n as [n IH] using lt_wf_ind. intros s Hn tail Hwf.
  destruct s as [|c s']; [reflexivity|].
  inversion Hwf as [|? ? Hc Hwf']; subst.
  destruct s' as [|d s''].
  - cbn [code_points List.map concat]. rewrite <- app_assoc.
    rewrite scan_quote_unit by exact Hc. reflexivity.
  - rewrite code_points_two. destruct (is_lead c && is_trail d) eqn:E.
    + apply andb_true_iff in E as [E1 E2].
      inversion Hwf' as [|? ? Hd Hwf'']; subst.
      cbn [List.map concat]. rewrite <- app_assoc.
      rewrite scan_quote_pair by assumption.
      rewrite (IH (length s'')) by (cbn; lia || assumption || reflexivity).
      reflexivity.
    + cbn [List.map concat]. rewrite <- app_assoc.
      rewrite scan_quote_unit by exact Hc.
      rewrite (IH (length (d :: s''))) by (cbn; lia || assumption || reflexivity).
      reflexivity.
Qed.

End Strings.

Section Entries.

Import JSON.

Lemma parse_value_string f x :
  parse_value (S f) (34 :: x) =
    match scan_string Plain x with
    | Some (str, rest) => Parsed (JStr str) rest
    | None => Malformed
    end.
Proof. reflexivity. Qed.

Lemma parse_value_quote f s rest :
  well_formed s ->
  parse_value (S f) (quote s ++ rest) = Parsed (JStr s) rest.
Proof.
  intros Hs. unfold quote. cbn [app]. rewrite parse_value_string.
  rewrite <- app_assoc. cbn [app]. rewrite scan_quoted_body by exact Hs.
  reflexivity.
Qed.

Lemma parse_members_member f x :
  parse_members (S f) (34 :: x) =
    match scan_string Plain x with
    | None => Malformed
    | Some (k, rest) =>
        match eat 58 (skip_ws rest) with
        | None => Malformed
        | Some rest' =>
            match parse_value f rest' with
            | Parsed v rest'' =>
                match eat 125 (skip_ws rest'') with
                | Some t => Parsed [(k, v)] t
                | None =>
                    match eat 44 (skip_ws rest'') with
                    | Some t =>
                        match parse_members f t with
                        | Parsed ms t' => Parsed ((k, v) :: ms) t'
                        | Malformed => Malformed
                        | OutOfFuel => OutOfFuel
                        end
                    | None => Malformed
                    end
                end
            | Malformed => Malformed
            | OutOfFuel => OutOfFuel
            end
        end
    end.
Proof. reflexivity. Qed.

Lemma parse_value_object f x :
  parse_value (S f) (123 :: 34 :: x) =
    match parse_members f (34 :: x) with
    | Parsed ms rest => Parsed (object_of ms) rest
    | Malformed => Malformed
    | OutOfFuel => OutOfFuel
    end.
Proof. reflexivity. Qed.

Lemma eat_here c s : is_ws c = false -> eat c (skip_ws (c :: s)) = Some s.
Proof. intros H. cbn [skip_ws]. rewrite H. cbn [eat]. rewrite N.eqb_refl. reflexivity. Qed.

Lemma eat_other c d s :
  is_ws d = false -> (d =? c) = false -> eat c (skip_ws (d :: s)) = None.
Proof. intros H E. cbn [skip_ws]. rewrite H. cbn [eat]. rewrite E. reflexivity. Qed.

Lemma well_formed_lit s : forallb (fun c => c <? 65536) (lit s) = true -> well_formed (lit s).
Proof.
  intros H. apply Forall_forall. intros c Hc.
  rewrite forallb_forall in H. apply N.ltb_lt. apply H. apply list_elem_of_In. exact Hc.
Qed.

Lemma stringify_entry q t :
  stringify (App.history_entry q t) =
    123 :: quote (lit "query") ++ 58 :: quote q ++
    44 :: quote (lit "timestamp") ++ 58 :: quote t ++ [125].
Proof.
  cbn [stringify App.history_entry List.map join fst snd app].
  rewrite <- !app_assoc. reflexivity.
Qed.

Ltac flatten := repeat first [rewrite <- app_assoc | progress cbn [app]].

Lemma parse_value_entry f q t rest :
  well_formed q -> well_formed t ->
  parse_value (S (S (S (S f)))) (stringify (App.history_entry q t) ++ rest)
    = Parsed (App.history_entry q t) rest.
Proof.
  intros Hq Ht. rewrite stringify_entry.
  change (quote (lit "query"))
    with (34 :: concat (List.map quote_code_point (code_points (lit "query"))) ++ [34]).
  change (quote (lit "timestamp"))
    with (34 :: concat (List.map quote_code_point (code_points (lit "timestamp"))) ++ [34]).
  flatten.
  rewrite parse_value_object, parse_members_member.
  rewrite scan_quoted_body by (apply well_formed_lit; reflexivity).
  rewrite eat_here by reflexivity.
  rewrite parse_value_quote by exact Hq.
  rewrite eat_other, eat_here by reflexivity.
  rewrite parse_members_member.
  rewrite scan_quoted_body by (apply well_formed_lit; reflexivity).
  rewrite eat_here by reflexivity.
  rewrite parse_value_quote by exact Ht.
  rewrite eat_here by reflexivity.
  reflexivity.
Qed.

End Entries.

Section Arrays.

Import JSON.

Lemma join_two sep p q ps :
  join sep (p :: q :: ps) = p ++ sep ++ join sep (q :: ps).
Proof. reflexivity. Qed.

Lemma parse_elements_step f x :
  parse_elements (S f) x =
    match parse_value f x with
    | Parsed v rest =>
        match eat 93 (skip_ws rest) with
        | Some rest' => Parsed [v] rest'
        | None =>
            match eat 44 (skip_ws rest) with
            | Some rest' =>
                match parse_elements f rest' with
                | Parsed xs rest'' => Parsed (v :: xs) rest''
                | Malformed => Malformed
                | OutOfFuel => OutOfFuel
                end
            | None => Malformed
            end
        end
    | Malformed => Malformed
    | OutOfFuel => OutOfFuel
    end.
Proof. reflexivity. Qed.

Lemma parse_value_array f x :
  parse_value (S f) (91 :: 123 :: x) =
    match parse_elements f (123 :: x) with
    | Parsed xs rest => Parsed (JArr xs) rest
    | Malformed => Malformed
    | OutOfFuel => OutOfFuel
    end.
Proof. reflexivity. Qed.

Lemma parse_elements_entries qts : forall qt f tail,
  Forall App.entry_strings (qt :: qts) ->
  (length qts + 4 <= f)%nat ->
  parse_elements (S f)
      (join [44] (List.map stringify (App.entries (qt :: qts))) ++ 93 :: tail)
    = Parsed (App.entries (qt :: qts)) tail.
Proof.
  induction qts as [|qt' qts IH]; intros [q t] f tail Hwf Hf;
    inversion Hwf as [|? ? [Hq Ht] Hwf']; subst; cbn [fst snd] in *.
  - do 4 (destruct f as [|f]; [cbn in Hf; lia|]).
    rewrite parse_elements_step.
    cbn [App.entries List.map join fst snd].
    rewrite parse_value_entry by assumption.
    rewrite eat_here by reflexivity. reflexivity.
  - do 5 (destruct f as [|f]; [cbn in Hf; lia|]).
    rewrite parse_elements_step.
    change (App.entries ((q, t) :: qt' :: qts))
      with (App.history_entry q t :: App.entries (qt' :: qts)).
    cbn [List.map]. change (List.map stringify (App.entries (qt' :: qts)))
      with (stringify (App.history_entry (fst qt') (snd qt'))
              :: List.map stringify (App.entries qts)).
    rewrite join_two. rewrite <- !app_assoc.
    rewrite parse_value_entry by assumption.
    cbn [app]. rewrite eat_other, eat_here by reflexivity.
    change (stringify (App.history_entry (fst qt') (snd qt'))
              :: List.map stringify (App.entries qts))
      with (List.map stringify (App.entries (qt' :: qts))).
    rewrite IH by (assumption || (cbn in Hf |- *; lia)).
    reflexivity.
Qed.

Lemma length_join_entries qts :
  (5 * length qts <= length (join [44%N] (List.map stringify (App.entries qts))))%nat.
Proof.
  induction qts as [|[q t] qts IH]; [cbn; lia|].
  assert (He : (5 <= length (stringify (App.history_entry q t)))%nat).
  { rewrite stringify_entry.
    repeat first [rewrite length_app | progress cbn [length]]. lia. }
  destruct qts as [|qt' qts].
  - cbn [App.entries List.map join fst snd length]. cbn [length] in He. lia.
  - change (App.entries ((q, t) :: qt' :: qts))
      with (App.history_entry q t :: App.entries (qt' :: qts)).
    cbn [List.map]. change (List.map stringify (App.entries (qt' :: qts)))
      with (stringify (App.history_entry (fst qt') (snd qt'))
              :: List.map stringify (App.entries qts)).
    rewrite join_two. rewrite !length_app.
    change (stringify (App.history_entry (fst qt') (snd qt'))
              :: List.map stringify (App.entries qts))
      with (List.map stringify (App.entries (qt' :: qts))).
    cbn [length] in IH |- *. lia.
Qed.

(** [JSON.parse] reads back what [JSON.stringify] wrote for a history. *)
Lemma parse_stringify_history qts :
  Forall App.entry_strings qts ->
  parse (stringify (JArr (App.entries qts))) = Normal (JArr (App.entries qts)).
Proof.
  intros Hwf. destruct qts as [|[q t] qts]; [reflexivity|].
  unfold parse. cbn [stringify].
  pose proof (length_join_entries ((q, t) :: qts)) as Hlen.
  remember (join [44] (List.map stringify (App.entries ((q, t) :: qts)))) as body eqn:Hb.
  assert (Hhead : exists x, body = 123 :: x).
  { subst body. destruct qts as [|qt' qts].
    - cbn [App.entries List.map join fst snd]. rewrite stringify_entry. eauto.
    - change (App.entries ((q, t) :: qt' :: qts))
        with (App.history_entry q t :: App.entries (qt' :: qts)).
      cbn [List.map]. change (List.map stringify (App.entries (qt' :: qts)))
        with (stringify (App.history_entry (fst qt') (snd qt'))
                :: List.map stringify (App.entries qts)).
      rewrite join_two, stringify_entry. cbn [app]. eauto. }
  destruct Hhead as [x Hx].
  cbn [app length]. rewrite length_app. cbn [length].
  replace (2 * S (length body + 1))%nat with (S (S (S (S (2 * length body))))) by lia.
  rewrite Hx at 2. cbn [app]. rewrite parse_value_array.
  change (123 :: x ++ [93]) with ((123 :: x) ++ [93]). rewrite <- Hx.
  clear Hx. subst body.
  rewrite parse_elements_entries;
    [reflexivity | exact Hwf | cbn [length] in Hlen |- *; lia].
Qed.

End Arrays.

(** *** The parser consumes its input and has fuel to spare *)

Section Fuel.

Import JSON.

Lemma skip_ws_length s : (length (skip_ws s) <= length s)%nat.
Proof.
  induction s as [|c s IH]; cbn [skip_ws]; [lia|].
  destruct (is_ws c); cbn [length] in *; lia.
Qed.

Lemma eat_length c s s' : eat c s = Some s' -> length s = S (length s').
Proof.
  destruct s as [|x s]; cbn [eat]; [discriminate|].
  destruct (x =? c); [|discriminate]. intros H. inversion H. reflexivity.
Qed.

Lemma eat_skip_length c s s' :
  eat c (skip_ws s) = Some s' -> (length s' < length s)%nat.
Proof.
  intros H. apply eat_length in H. pose proof (skip_ws_length s). lia.
Qed.

Lemma push_some c r out rest :
  push c r = Some (out, rest) -> exists out', r = Some (out', rest).
Proof.
  destruct r as [[o r']|]; cbn [push]; [|discriminate].
  intros H. inversion H. eauto.
Qed.

Lemma scan_string_length s : forall st out rest,
  scan_string st s = Some (out, rest) -> (length rest < length s)%nat.
Proof.
  induction s as [|c s IH]; intros st out rest H; cbn [scan_string] in H;
    [discriminate|].
  cbn [length].
  destruct st as [| |k acc].
  - destruct (c =? 34); [inversion H; subst; lia|].
    destruct (c =? 92); [apply IH in H; lia|].
    destruct (c <? 32); [discriminate|].
    apply push_some in H as [o H]. apply IH in H. lia.
  - destruct (unescape c).
    + apply push_some in H as [o H]. apply IH in H. lia.
    + destruct (c =? 117); [|discriminate]. apply IH in H. lia.
  - destruct (hex_value c); [|discriminate]. destruct k.
    + apply push_some in H as [o H]. apply IH in H. lia.
    + apply IH in H. lia.
Qed.

Lemma span_digits_length s : forall ds rest,
  span_digits s = (ds, rest) -> length s = (length ds + length rest)%nat.
Proof.
  induction s as [|c s IH]; intros ds rest H; cbn [span_digits] in H.
  - inversion H. reflexivity.
  - destruct (is_digit c).
    + destruct (span_digits s) as [ds' rest'] eqn:E. inversion H; subst.
      cbn [length]. rewrite (IH ds' rest eq_refl). reflexivity.
    + inversion H; subst. reflexivity.
Qed.

Lemma some_digits_length s ds rest :
  some_digits s = Some (ds, rest) -> (length rest < length s)%nat.
Proof.
  unfold some_digits. destruct (span_digits s) as [ds' rest'] eqn:E.
  apply span_digits_length in E.
  destruct ds' as [|d ds']; [discriminate|].
  intros H. inversion H; subst. cbn [length] in E. lia.
Qed.

Lemma scan_sign_length s sign rest :
  scan_sign s = (sign, rest) -> (length rest <= length s)%nat.
Proof.
  unfold scan_sign. destruct (eat 45 s) as [s'|] eqn:E; intros H; inversion H; subst.
  - apply eat_length in E. lia.
  - lia.
Qed.

Lemma scan_int_length s ip rest :
  scan_int s = Some (ip, rest) -> (length rest < length s)%nat.
Proof.
  unfold scan_int. destruct s as [|c s]; [discriminate|]. cbn [length].
  destruct (c =? 48); [intros H; inversion H; subst; lia|].
  destruct (is_digit c); [|discriminate].
  destruct (span_digits s) as [ds r] eqn:E. apply span_digits_length in E.
  intros H; inversion H; subst. lia.
Qed.

Lemma scan_frac_length s fp rest :
  scan_frac s = Some (fp, rest) -> (length rest <= length s)%nat.
Proof.
  unfold scan_frac. destruct (eat 46 s) as [s'|] eqn:E.
  - apply eat_length in E. destruct (some_digits s') as [[ds r]|] eqn:D; [|discriminate].
    apply some_digits_length in D. intros H; inversion H; subst. lia.
  - intros H; inversion H; subst. lia.
Qed.

Lemma scan_exp_length s ep rest :
  scan_exp s = Some (ep, rest) -> (length rest <= length s)%nat.
Proof.
  unfold scan_exp. destruct s as [|e s]; [intros H; inversion H; subst; lia|].
  destruct ((e =? 101) || (e =? 69)); [|intros H; inversion H; subst; lia].
  assert (Hs : forall esign s'',
    match s with
    | x :: t => if (x =? 43) || (x =? 45) then ([x], t) else ([], s)
    | [] => ([], s)
    end = (esign, s'') -> (length s'' <= length s)%nat).
  { intros esign s'' H. destruct s as [|x t]; [inversion H; subst; lia|].
    destruct ((x =? 43) || (x =? 45)); inversion H; subst; cbn [length]; lia. }
  pose proof (Hs _ _ (surjective_pairing _)) as E. clear Hs.
  destruct (match s with [] => _ | _ => _ end) as [esign s'']. cbn [snd] in E.
  destruct (some_digits s'') as [[ds r]|] eqn:D; [|discriminate].
  apply some_digits_length in D. intros H; inversion H; subst. cbn [length]. lia.
Qed.

Lemma scan_number_length s lexeme rest :
  scan_number s = Some (lexeme, rest) -> (length rest < length s)%nat.
Proof.
  unfold scan_number.
  destruct (scan_sign s) as [sign s1] eqn:E1. apply scan_sign_length in E1.
  destruct (scan_int s1) as [[ip s2]|] eqn:E2; [|discriminate].
  apply scan_int_length in E2.
  destruct (scan_frac s2) as [[fp s3]|] eqn:E3; [|discriminate].
  apply scan_frac_length in E3.
  destruct (scan_exp s3) as [[ep s4]|] eqn:E4; [|discriminate].
  apply scan_exp_length in E4.
  intros H; inversion H; subst. lia.
Qed.

Lemma startsWith_length p s : startsWith p s = true -> (length p <= length s)%nat.
Proof.
  revert s. induction p as [|a p IH]; intros s H; cbn [length]; [lia|].
  destruct s as [|b s]; cbn [startsWith] in H; [discriminate|].
  apply andb_true_iff in H as [_ H]. apply IH in H. cbn [length]. lia.
Qed.

Lemma expect_length word v s v' rest :
  word <> [] ->
  expect word v s = Parsed v' rest -> (length rest < length s)%nat.
Proof.
  unfold expect. intros Hw. destruct (startsWith word s) eqn:E; [|discriminate].
  apply startsWith_length in E. intros H; inversion H; subst.
  rewrite length_drop. destruct word; [contradiction|]. cbn [length] in *. lia.
Qed.

(** Whatever the parser reads, it reads at least one character. *)
Lemma parse_shorter fuel :
  (forall s v rest, parse_value fuel s = Parsed v rest ->
     (length rest < length s)%nat) /\
  (forall s xs rest, parse_elements fuel s = Parsed xs rest ->
     (length rest < length s)%nat) /\
  (forall s ms rest, parse_members fuel s = Parsed ms rest ->
     (length rest < length s)%nat).
Proof.
  induction fuel as [|fuel (IHv & IHe & IHm)];
    [repeat split; intros; discriminate|].
  repeat split.
  - intros s v rest. cbn [parse_value].
    pose proof (skip_ws_length s) as Hws.
    destruct (skip_ws s) as [|c s'] eqn:E; [discriminate|]. cbn [length] in Hws.
    destruct (c =? 123).
    { destruct (eat 125 (skip_ws s')) as [r|] eqn:E1.
      - apply eat_skip_length in E1. intros H; inversion H; subst. lia.
      - destruct (parse_members fuel s') as [ms r| |] eqn:E2; try discriminate.
        apply IHm in E2. intros H; inversion H; subst. lia. }
    destruct (c =? 91).
    { destruct (eat 93 (skip_ws s')) as [r|] eqn:E1.
      - apply eat_skip_length in E1. intros H; inversion H; subst. lia.
      - destruct (parse_elements fuel s') as [xs r| |] eqn:E2; try discriminate.
        apply IHe in E2. intros H; inversion H; subst. lia. }
    destruct (c =? 34).
    { destruct (scan_string Plain s') as [[str r]|] eqn:E1; [|discriminate].
      apply scan_string_length in E1. intros H; inversion H; subst. lia. }
    destruct (c =? 116);
      [intros H; apply expect_length in H; [cbn [length] in H; lia|discriminate]|].
    destruct (c =? 102);
      [intros H; apply expect_length in H; [cbn [length] in H; lia|discriminate]|].
    destruct (c =? 110);
      [intros H; apply expect_length in H; [cbn [length] in H; lia|discriminate]|].
    destruct (scan_number (c :: s')) as [[lexeme r]|] eqn:E1; [|discriminate].
    apply scan_number_length in E1. cbn [length] in E1.
    intros H; inversion H; subst. lia.
  - intros s xs rest. cbn [parse_elements].
    destruct (parse_value fuel s) as [x r| |] eqn:E; try discriminate.
    apply IHv in E.
    destruct (eat 93 (skip_ws r)) as [r'|] eqn:E1.
    + apply eat_skip_length in E1. intros H; inversion H; subst. lia.
    + destruct (eat 44 (skip_ws r)) as [r'|] eqn:E2; [|discriminate].
      apply eat_skip_length in E2.
      destruct (parse_elements fuel r') as [xs' r''| |] eqn:E3; try discriminate.
      apply IHe in E3. intros H; inversion H; subst. lia.
  - intros s ms rest. cbn [parse_members].
    destruct (eat 34 (skip_ws s)) as [s'|] eqn:E0; [|discriminate].
    apply eat_skip_length in E0.
    destruct (scan_string Plain s') as [[k r]|] eqn:E1; [|discriminate].
    apply scan_string_length in E1.
    destruct (eat 58 (skip_ws r)) as [r'|] eqn:E2; [|discriminate].
    apply eat_skip_length in E2.
    destruct (parse_value fuel r') as [v r''| |] eqn:E3; try discriminate.
    apply IHv in E3.
    destruct (eat 125 (skip_ws r'')) as [t|] eqn:E4.
    + apply eat_skip_length in E4. intros H; inversion H; subst. lia.
    + destruct (eat 44 (skip_ws r'')) as [t|] eqn:E5; [|discriminate].
      apply eat_skip_length in E5.
      destruct (parse_members fuel t) as [ms' t'| |] eqn:E6; try discriminate.
      apply IHm in E6. intros H; inversion H; subst. lia.
Qed.

(** With more than twice the length of the text as fuel, the parser does
    not run out of it. *)
Lemma parse_fuel fuel :
  (forall s, (2 * length s < fuel)%nat -> parse_value fuel s <> OutOfFuel) /\
  (forall s, (2 * length s + 1 < fuel)%nat -> parse_elements fuel s <> OutOfFuel) /\
  (forall s, (2 * length s + 1 < fuel)%nat -> parse_members fuel s <> OutOfFuel).
Proof.
  induction fuel as [|fuel (IHv & IHe & IHm)]; [repeat split; intros; lia|].
  repeat split.
  - intros s Hf. cbn [parse_value].
    pose proof (skip_ws_length s) as Hws.
    destruct (skip_ws s) as [|c s'] eqn:E; [discriminate|]. cbn [length] in Hws.
    destruct (c =? 123).
    { destruct (eat 125 (skip_ws s')); [discriminate|].
      pose proof (IHm s' ltac:(lia)).
      destruct (parse_members fuel s'); congruence. }
    destruct (c =? 91).
    { destruct (eat 93 (skip_ws s')); [discriminate|].
      pose proof (IHe s' ltac:(lia)).
      destruct (parse_elements fuel s'); congruence. }
    destruct (c =? 34); [destruct (scan_string Plain s') as [[? ?]|]; discriminate|].
    unfold expect.
    destruct (c =? 116); [destruct (startsWith _ _); discriminate|].
    destruct (c =? 102); [destruct (startsWith _ _); discriminate|].
    destruct (c =? 110); [destruct (startsWith _ _); discriminate|].
    destruct (scan_number (c :: s')) as [[? ?]|]; discriminate.
  - intros s Hf. cbn [parse_elements].
    pose proof (IHv s ltac:(lia)) as Hv.
    destruct (parse_value fuel s) as [x r| |] eqn:E; [|discriminate|congruence].
    apply (proj1 (parse_shorter fuel)) in E.
    destruct (eat 93 (skip_ws r)); [discriminate|].
    destruct (eat 44 (skip_ws r)) as [r'|] eqn:E2; [|discriminate].
    apply eat_skip_length in E2.
    pose proof (IHe r' ltac:(lia)).
    destruct (parse_elements fuel r'); congruence.
  - intros s Hf. cbn [parse_members].
    destruct (eat 34 (skip_ws s)) as [s'|] eqn:E0; [|discriminate].
    apply eat_skip_length in E0.
    destruct (scan_string Plain s') as [[k r]|] eqn:E1; [|discriminate].
    apply scan_string_length in E1.
    destruct (eat 58 (skip_ws r)) as [r'|] eqn:E2; [|discriminate].
    apply eat_skip_length in E2.
    pose proof (IHv r' ltac:(lia)) as Hv.
    destruct (parse_value fuel r') as [v r''| |] eqn:E3; [|discriminate|congruence].
    apply (proj1 (parse_shorter fuel)) in E3.
    destruct (eat 125 (skip_ws r'')); [discriminate|].
    destruct (eat 44 (skip_ws r'')) as [t|] eqn:E5; [|discriminate].
    apply eat_skip_length in E5.
    pose proof (IHm t ltac:(lia)).
    destruct (parse_members fuel t); congruence.
Qed.

(** [JSON.parse] never stops for lack of fuel: it returns a value or finds
    the text malformed. *)
Lemma parse_value_fuel text :
  parse_value (S (2 * length text)) text <> OutOfFuel.
Proof. apply (proj1 (parse_fuel _)). lia. Qed.

End Fuel.

(** *** Loading and reloading the history (C4, C5) *)

Lemma stringify_array_not_empty xs : JSON.stringify (JArr xs) <> [].
Proof. cbn [JSON.stringify app]. discriminate. Qed.

Lemma loadHistory_stored text h (w : World) :
  text <> [] ->
  JSON.parse text = Normal h ->
  let store := localStorage (setItem history_key text w) in
  loadHistory (initial_world store) = (setSearchHistory h (initial_world store), Normal tt).
Proof.
  intros Hne Hp store. unfold loadHistory, getItem. cbn [localStorage initial_world].
  subst store. cbn [setItem localStorage]. rewrite lookup_insert_eq.
  destruct text as [|c text]; [contradiction|]. rewrite Hp. reflexivity.
Qed.

(** C4 (the claim as stated fails). With a stored text that is not JSON,
    [JSON.parse] finds it malformed and the history effect throws the
    SyntaxError instead of leaving an empty history. *)
Lemma C4_counterexample :
  let text := lit "{not json" in
  let w := initial_world (<[history_key := text]> ∅) in
  JSON.parse_value (S (2 * length text)) text = JSON.Malformed /\
  snd (loadHistory w) = Throw JSON.syntax_error /\
  snd (loadHistory w) <> Normal tt.
Proof. repeat split. discriminate. Qed.

(** C4 (amended). At initialization, an absent slot and a slot holding the
    empty string leave the history the empty sequence and nothing is
    raised; a slot holding JSON text makes the value it denotes the history;
    a slot holding any other text makes the effect throw the SyntaxError of
    [JSON.parse], with the state untouched. *)
Theorem C4_load_history (store : gmap jsstring jsstring) :
  let w := initial_world store in
  (store !! history_key = None \/ store !! history_key = Some [] ->
     loadHistory w = (w, Normal tt) /\ searchHistory (component w) = JArr []) /\
  (forall text h,
     store !! history_key = Some text -> text <> [] ->
     JSON.parse text = Normal h ->
     loadHistory w = (setSearchHistory h w, Normal tt)) /\
  (forall text e,
     store !! history_key = Some text -> text <> [] ->
     JSON.parse text = Throw e ->
     loadHistory w = (w, Throw e) /\ e = JSON.syntax_error).
Proof.
  intros w. unfold loadHistory, getItem. cbn [localStorage w initial_world].
  split; [|split].
  - intros [-> | ->]; split; reflexivity.
  - intros text h -> Hne Hp. destruct text as [|c text]; [contradiction|].
    rewrite Hp. reflexivity.
  - intros text e -> Hne Hp. destruct text as [|c text]; [contradiction|].
    rewrite Hp. split; [reflexivity|].
    unfold JSON.parse in Hp.
    destruct (JSON.parse_value _ _) as [v rest| |];
      [destruct (JSON.skip_ws rest)|..]; inversion Hp; reflexivity.
Qed.

Lemma C4_load_history_witness :
  (∅ : gmap jsstring jsstring) !! history_key = None /\
  loadHistory (initial_world ∅) = (initial_world ∅, Normal tt).
Proof.
  split; [reflexivity|].
  apply (proj1 (C4_load_history ∅)). left. reflexivity.
Defined.

(** C5. For every sequence of history entries (pairs of a query and a
    timestamp, both strings), the text the append writes to the storage
    slot - the serialization of the whole sequence - is read back by the
    load of a later session as exactly that sequence, in that order; so
    the history a resolved submission leaves in memory is the one the next
    session starts from. *)
Theorem C5_history_round_trip (qts : list (jsstring * jsstring)) (w : World) :
  Forall entry_strings qts ->
  let h := JArr (entries qts) in
  let store := localStorage (setItem history_key (JSON.stringify h) w) in
  JSON.parse (JSON.stringify h) = Normal h /\
  loadHistory (initial_world store)
    = (setSearchHistory h (initial_world store), Normal tt) /\
  searchHistory (component (fst (loadHistory (initial_world store)))) = h /\
  (forall t now response,
     searchHistory (component w) = h ->
     well_formed (query (component w)) -> well_formed now ->
     axios_settle t = Normal response ->
     let w' := fst (handleSubmit t now w) in
     searchHistory (component (fst (loadHistory (initial_world (localStorage w')))))
       = searchHistory (component w')).
Proof.
  intros Hwf h store.
  pose proof (parse_stringify_history qts Hwf) as Hp. fold h in Hp.
  pose proof (loadHistory_stored (JSON.stringify h) h w
                (stringify_array_not_empty _) Hp) as Hl.
  cbv zeta in Hl. fold store in Hl.
  split; [exact Hp|]. split; [exact Hl|]. split; [rewrite Hl; reflexivity|].
  intros t now response Hh Hq Hnow Hs w'.
  subst w'. rewrite (handleSubmit_resolved t now w response (entries qts) Hs)
    by (rewrite Hh; reflexivity).
  cbv zeta. cbn [fst component searchHistory localStorage].
  change (history_entry (query (component w)) now :: entries qts)
    with (entries ((query (component w), now) :: qts)).
  assert (Hwf' : Forall entry_strings ((query (component w), now) :: qts))
    by (constructor; [split; assumption|exact Hwf]).
  pose proof (parse_stringify_history _ Hwf') as Hp'.
  pose proof (loadHistory_stored _ _ w (stringify_array_not_empty _) Hp') as Hl'.
  cbv zeta in Hl'. cbn [setItem localStorage] in Hl'. rewrite Hl'. reflexivity.
Qed.

Lemma C5_history_round_trip_witness :
  let qts := [(lit "open change tickets", noon);
              ([34; 92; 10; 233; 0xD83D; 0xDE00; 0xD800], lit "2025-05-08T09:30:00.000Z")] in
  Forall entry_strings qts /\
  JSON.parse (JSON.stringify (JArr (entries qts))) = Normal (JArr (entries qts)).
Proof.
  assert (H : Forall entry_strings
                [(lit "open change tickets", noon);
                 ([34; 92; 10; 233; 0xD83D; 0xDE00; 0xD800],
                  lit "2025-05-08T09:30:00.000Z")]).
  { repeat constructor; cbn; unfold code_unit; lia. }
  split; [exact H|].
  apply (C5_history_round_trip _ (initial_world ∅) H).
Defined.

(** X19. Numbers in a stored history are doubles from the load on: a
    submission writes them back in the shortest notation that denotes the
    same double, so [1.0] comes back as [1], [1e2] as [100] and
    [12345678901234567890] as [12345678901234567000]; a number too small
    for a double is zero (and falsy), one too large is infinite and is
    written back as [null]. *)
Theorem stored_numbers_are_doubles :
  let store : gmap jsstring jsstring :=
    <[history_key := lit "[1.0,1e2,12345678901234567890,0.1,1e-400,-0,1e999]"]> ∅ in
  let w := fst (loadHistory (initial_world store)) in
  let w' := fst (handleSubmit (Delivered 200 JNull) noon w) in
  snd (loadHistory (initial_world store)) = Normal tt /\
  getItem history_key w'
    = Some (lit "[" ++ JSON.stringify (history_entry [] noon)
            ++ lit ",1,100,12345678901234567000,0.1,0,0,null]") /\
  truthy (Some (num "1e-400")) = false /\
  truthy (Some (num "-0")) = false /\
  truthy (Some (num "1e999")) = true.
Proof. vm_compute. repeat split. Qed.

(* ===================================================================== *)
(** ** The background-image rewrite *)
(* ===================================================================== *)

Section Rewrite.

Import Vite.

Variable absolute_href : jsstring -> completion jsstring.

Local Abbreviation href := (Vite.href absolute_href).
Local Abbreviation replacer := (Vite.replacer absolute_href).
Local Abbreviation replace_from := (Vite.replace_from absolute_href).
Local Abbreviation rewrite_value := (Vite.rewrite_value absolute_href).
Local Abbreviation rewritten_text := (Vite.rewritten_text absolute_href).

Lemma startsWith_app p x : startsWith p (p ++ x) = true.
Proof. induction p as [|a p IH]; cbn [startsWith app]; [reflexivity|].
  rewrite N.eqb_refl. exact IH. Qed.

Lemma drop_app_length (p x : jsstring) : drop (length p) (p ++ x) = x.
Proof. induction p as [|a p IH]; [reflexivity|exact IH]. Qed.

(** The lazy run stops at the end of a reference that holds no closing
    parenthesis. *)
Lemma lazy_find_unquoted u rest :
  forallb (fun c => negb (c =? 41) && negb (is_line_terminator c)) u = true ->
  lazy_find [] (u ++ 41 :: rest) = Some (u, rest).
Proof.
  induction u as [|c u IH]; intros H; cbn [app lazy_find].
  - reflexivity.
  - cbn [forallb] in H. apply andb_true_iff in H as [Hc H].
    apply andb_true_iff in Hc as [H41 Hlt].
    apply negb_true_iff in H41, Hlt.
    cbn [startsWith]. rewrite N.eqb_sym, H41. cbn [andb]. rewrite Hlt.
    cbn [app] in IH. rewrite (IH H). reflexivity.
Qed.

Lemma lazy_find_quoted x u rest :
  is_quote x = true ->
  forallb (fun c => negb (c =? 41) && negb (is_line_terminator c)) u = true ->
  lazy_find [x] (u ++ x :: 41 :: rest) = Some (u, rest).
Proof.
  intros Hx. induction u as [|c u IH]; intros H; cbn [app lazy_find].
  - cbn [startsWith]. rewrite !N.eqb_refl. reflexivity.
  - cbn [forallb] in H. apply andb_true_iff in H as [Hc H].
    apply andb_true_iff in Hc as [H41 Hlt].
    apply negb_true_iff in H41, Hlt.
    assert (Hno : startsWith [x; 41] (c :: u ++ x :: 41 :: rest) = false).
    { cbn [startsWith]. destruct (x =? c); [|reflexivity]. cbn [andb].
      destruct u as [|d u]; cbn [app].
      - assert (E : (41 =? x) = false).
        { unfold is_quote in Hx. apply N.eqb_neq. intros <-. discriminate Hx. }
        rewrite E. reflexivity.
      - cbn [forallb] in H. apply andb_true_iff in H as [Hd _].
        apply andb_true_iff in Hd as [Hd _]. apply negb_true_iff in Hd.
        rewrite N.eqb_sym, Hd. reflexivity. }
    cbn [app] in Hno. rewrite Hno, Hlt, (IH H). reflexivity.
Qed.

(** The pattern reads a plain token as its quote and its reference. *)
Lemma match_url_token q u rest :
  plain_reference u = true -> plain_quote q u = true ->
  match_url (matched q u ++ rest) = Some (q, u, rest).
Proof.
  unfold plain_reference. intros Hu Hq. unfold match_url, matched.
  rewrite <- !app_assoc. rewrite startsWith_app.
  change 4%nat with (length (lit "url(")). rewrite drop_app_length.
  change (lit ")") with [41]. cbn [app].
  destruct q as [|x [|y q]]; cbn [plain_quote] in Hq; [| |discriminate].
  - cbn [app]. rewrite lazy_find_unquoted by exact Hu.
    destruct u as [|c u]; cbn [app]; [reflexivity|].
    apply negb_true_iff in Hq. rewrite Hq. reflexivity.
  - cbn [app]. rewrite Hq. rewrite lazy_find_quoted by assumption. reflexivity.
Qed.

(** The counter steps over the text of a match. *)
Lemma replace_from_skip x s : replace_from (length x) (x ++ s) = replace_from 0 s.
Proof. induction x as [|c x IH]; [reflexivity|exact IH]. Qed.

Lemma replace_from_match q u rest :
  match_url (matched q u ++ rest) = Some (q, u, rest) ->
  replace_from 0 (matched q u ++ rest) =
    bind (replacer q u) (fun r =>
    bind (replace_from 0 rest) (fun out => Normal (r ++ out))).
Proof.
  intros Hm.
  set (body := lit "rl(" ++ q ++ u ++ q ++ lit ")").
  assert (Hb : matched q u = 117 :: body) by reflexivity.
  rewrite Hb in Hm |- *. cbn [app] in Hm |- *. cbn [Vite.replace_from].
  rewrite Hm, Hb. cbn [length].
  replace (S (length body) - 1)%nat with (length body) by lia.
  rewrite replace_from_skip. reflexivity.
Qed.

Lemma replace_from_token q u rest :
  plain_reference u = true -> plain_quote q u = true ->
  replace_from 0 (matched q u ++ rest) =
    bind (replacer q u) (fun r =>
    bind (replace_from 0 rest) (fun out => Normal (r ++ out))).
Proof.
  intros Hu Hq. apply replace_from_match. exact (match_url_token q u rest Hu Hq).
Qed.

(** Where no match starts, the text is copied. *)
Lemma startsWith_url_app x nxt :
  startsWith (lit "url(") x = false ->
  (nxt = [] \/ exists n, nxt = 117 :: n) ->
  x <> [] ->
  startsWith (lit "url(") (x ++ nxt) = false.
Proof.
  intros Hx Hn Hne.
  destruct x as [|a [|b [|c [|d x]]]]; [contradiction|..]; cbn [app];
    try (destruct Hn as [->|[n ->]]; cbn [startsWith lit List.map list_ascii_of_string
           N_of_ascii] in *; cbn in *;
         repeat match goal with
                | |- context [?p =? ?q] => destruct (p =? q); cbn; try reflexivity
                end; fail).
  exact Hx.
Qed.

Lemma includes_cons p c x :
  includes p (c :: x) = false ->
  startsWith p (c :: x) = false /\ includes p x = false.
Proof. cbn [includes]. intros H. apply orb_false_iff in H. exact H. Qed.

Lemma replace_from_quiet sep nxt :
  includes (lit "url(") sep = false ->
  (nxt = [] \/ exists n, nxt = 117 :: n) ->
  replace_from 0 (sep ++ nxt) =
    bind (replace_from 0 nxt) (fun out => Normal (sep ++ out)).
Proof.
  intros Hs Hn. induction sep as [|c sep IH]; cbn [app].
  - destruct (replace_from 0 nxt); reflexivity.
  - apply includes_cons in Hs as [Hc Hs].
    assert (Hm : match_url (c :: sep ++ nxt) = None).
    { pose proof (startsWith_url_app (c :: sep) nxt Hc Hn ltac:(discriminate)) as E.
      cbn [app] in E. unfold match_url. rewrite E. reflexivity. }
    cbn [Vite.replace_from]. rewrite Hm, (IH Hs).
    destruct (replace_from 0 nxt); reflexivity.
Qed.

Lemma replace_from_no_url tail :
  includes (lit "url(") tail = false -> replace_from 0 tail = Normal tail.
Proof.
  intros H. rewrite <- (app_nil_r tail) at 1.
  rewrite replace_from_quiet by (auto || exact H).
  cbn [Vite.replace_from bind]. rewrite app_nil_r. reflexivity.
Qed.

Lemma startsWith_shorter p p' x :
  startsWith (p ++ p') x = true -> startsWith p x = true.
Proof.
  revert x. induction p as [|a p IH]; intros x H; [reflexivity|].
  destruct x as [|b x]; cbn [app startsWith] in *; [discriminate|].
  apply andb_true_iff in H as [H1 H2]. rewrite H1. exact (IH x H2).
Qed.

Lemma includes_longer p p' x :
  includes p x = false -> includes (p ++ p') x = false.
Proof.
  induction x as [|c x IH]; cbn [includes]; intros H;
    apply orb_false_iff in H as [H1 H2]; apply orb_false_iff; split;
    try (destruct (startsWith (p ++ p') _) eqn:E; [|reflexivity];
         apply startsWith_shorter in E; congruence).
  - reflexivity.
  - exact (IH H2).
Qed.

(** The test of line 30 changes nothing: a value without [url] has no
    match. *)
Lemma rewrite_value_replace value : rewrite_value value = replace_from 0 value.
Proof.
  unfold Vite.rewrite_value. destruct (includes (lit "url") value) eqn:E; [reflexivity|].
  symmetry. apply replace_from_no_url.
  exact (includes_longer (lit "url") (lit "(") value E).
Qed.

Lemma plain_token_parts t :
  plain_token t = true ->
  includes (lit "url(") (before t) = false /\
  plain_reference (reference t) = true /\
  plain_quote (quote_of t) (reference t) = true.
Proof.
  unfold plain_token. intros H.
  apply andb_true_iff in H as [H H3]. apply andb_true_iff in H as [H1 H2].
  apply negb_true_iff in H1. auto.
Qed.

(** The pattern and the token-wise reading agree. *)
Lemma replace_from_tokens tokens tail :
  forallb plain_token tokens = true ->
  includes (lit "url(") tail = false ->
  replace_from 0 (source_text tokens tail) = rewritten_text tokens tail.
Proof.
  intros Ht Htail. induction tokens as [|t ts IH].
  - apply replace_from_no_url. exact Htail.
  - cbn [forallb] in Ht. apply andb_true_iff in Ht as [Hp Ht].
    apply plain_token_parts in Hp as (Hb & Hu & Hq).
    unfold source_text in *. cbn [List.map concat]. rewrite <- !app_assoc.
    rewrite replace_from_quiet; [|exact Hb|right; eexists; reflexivity].
    rewrite replace_from_token by assumption.
    rewrite (IH Ht). cbn [Vite.rewritten_text].
    destruct (replacer (quote_of t) (reference t)); [|reflexivity].
    cbn [bind]. destruct (rewritten_text ts tail); reflexivity.
Qed.

Lemma replacer_resolves q u :
  startsWith (lit "data:") u = false -> startsWith (lit "http") u = false ->
  replacer q u =
    bind (href u) (fun h => Normal (lit "url(" ++ q ++ h ++ q ++ lit ")")).
Proof. intros H1 H2. unfold Vite.replacer. rewrite H1, H2. reflexivity. Qed.

Lemma replacer_rewrites q u h :
  startsWith (lit "data:") u = false -> startsWith (lit "http") u = false ->
  resolve_on_base u = Some h ->
  replacer q u = Normal (lit "url(" ++ q ++ h ++ q ++ lit ")").
Proof.
  intros H1 H2 H3. rewrite (replacer_resolves q u H1 H2).
  unfold Vite.href. rewrite H3. reflexivity.
Qed.

Lemma replacer_keeps q u :
  startsWith (lit "data:") u = true \/ startsWith (lit "http") u = true ->
  replacer q u = Normal (matched q u).
Proof.
  intros H. unfold Vite.replacer.
  destruct H as [H|H]; rewrite H; [|rewrite andb_false_r]; reflexivity.
Qed.

End Rewrite.




(* ===================================================================== *)
(** ** Sessions: the history across submissions and page loads *)
(* ===================================================================== *)

Section Sessions.

Lemma step_keeps w q log e :
  in_session w q log -> event_strings e ->
  in_session (step w e) (query (component (step w e))) (recorded [e] q log).
Proof.
  intros (Hq & Hwq & Hlog & Hh & Hs) He. destruct e as [text|t now|]; cbn [step recorded].
  - repeat split; cbn; assumption.
  - destruct (axios_settle t) as [response|err] eqn:Hset.
    + rewrite (handleSubmit_resolved t now w response (entries log) Hset)
        by (rewrite Hh; reflexivity).
      cbv zeta. cbn [fst component query searchHistory localStorage].
      rewrite Hq. repeat split; try assumption.
      * constructor; [split; assumption|assumption].
      * apply lookup_insert_eq.
    + assert (E : exists e',
        fst (handleSubmit t now w) =
          {| component := {| query := query (component w);
                             results := results (component w);
                             loading := false; error := e';
                             searchHistory := searchHistory (component w) |};
             localStorage := localStorage w;
             requests := requests w ++ [search_request (query (component w))] |}).
      { destruct (errorMessage err) as [m|e'] eqn:Hm.
        - rewrite (handleSubmit_caught t now w err m Hset Hm). eauto.
        - rewrite (handleSubmit_catch_throws t now w err e' Hset Hm). eauto. }
      destruct E as [e' ->]. cbn [component query searchHistory localStorage].
      rewrite Hq. repeat split; assumption.
  - unfold loadHistory, getItem. cbn [initial_world localStorage]. rewrite Hs.
    destruct log as [|qt log].
    + cbn [fst initial_world initial_app component query searchHistory localStorage].
      split; [reflexivity|]. split; [constructor|]. split; [assumption|].
      split; [reflexivity|]. exact Hs.
    + pose proof (stringify_array_not_empty (entries (qt :: log))) as Hne.
      destruct (JSON.stringify (JArr (entries (qt :: log)))) as [|c text] eqn:Et;
        [contradiction|].
      rewrite <- Et. rewrite (parse_stringify_history _ Hlog).
      cbn [fst setSearchHistory with_app component query searchHistory localStorage
           initial_world initial_app].
      split; [reflexivity|]. split; [constructor|]. split; [assumption|].
      split; [reflexivity|]. rewrite Et. exact Hs.
Qed.

Lemma recorded_step e es q log w :
  in_session w q log ->
  recorded (e :: es) q log
    = recorded es (query (component (step w e))) (recorded [e] q log).
Proof.
  intros (Hq & _). destruct e as [text|t now|]; cbn [recorded step].
  - reflexivity.
  - assert (Hk : query (component (fst (handleSubmit t now w))) = query (component w)).
    { unfold handleSubmit, handleSubmit_begin, handleSubmit_resume.
      destruct (axios_settle t) as [response|err].
      - unfold on_resolved. cbn [c_history c_query].
        destruct (spread _); [reflexivity|].
        unfold on_caught. destruct (errorMessage e); reflexivity.
      - unfold on_caught. destruct (errorMessage err); reflexivity. }
    rewrite Hk, Hq. reflexivity.
  - unfold loadHistory. destruct (getItem _ _) as [[|c text]|]; try reflexivity.
    destruct (JSON.parse _); reflexivity.
Qed.

Lemma run_keeps es : forall w q log,
  in_session w q log -> Forall event_strings es ->
  in_session (run es w) (query (component (run es w))) (recorded es q log).
Proof.
  induction es as [|e es IH]; intros w q log Hin Hes.
  - cbn [run fold_left recorded]. destruct Hin as (Hq & H). rewrite Hq.
    split; [exact Hq|exact H].
  - inversion Hes as [|? ? He Hes']; subst.
    rewrite (recorded_step e es q log w Hin).
    apply (IH (step w e)); [|exact Hes'].
    apply step_keeps; assumption.
Qed.

Lemma fresh_in_session : in_session (initial_world ∅) [] [].
Proof. repeat split; constructor. Qed.

Lemma reload_in_session w q log :
  in_session w q log ->
  loadHistory (initial_world (localStorage w))
    = (setSearchHistory (JArr (entries log)) (initial_world (localStorage w)),
       Normal tt).
Proof.
  intros (_ & _ & Hlog & _ & Hs).
  unfold loadHistory, getItem. cbn [initial_world localStorage]. rewrite Hs.
  destruct log as [|qt log]; [reflexivity|].
  pose proof (stringify_array_not_empty (entries (qt :: log))) as Hne.
  destruct (JSON.stringify (JArr (entries (qt :: log)))) as [|c text] eqn:Et;
    [contradiction|].
  rewrite <- Et, (parse_stringify_history _ Hlog). reflexivity.
Qed.

Lemma recorded_extends es : forall q log,
  exists newer, recorded es q log = newer ++ log.
Proof.
  induction es as [|e es IH]; intros q log; [exists []; reflexivity|].
  destruct e as [text|t now|]; cbn [recorded]; try apply IH.
  destruct (axios_settle t); [|apply IH].
  destruct (IH q ((q, now) :: log)) as [newer ->].
  exists (newer ++ [(q, now)]). rewrite <- app_assoc. reflexivity.
Qed.

Lemma map_items_entries log :
  map_items (entries log) = Normal (List.map (fun qt => Some (JStr (fst qt))) log).
Proof.
  induction log as [|[q t] log IH]; [reflexivity|].
  change (entries ((q, t) :: log)) with (history_entry q t :: entries log).
  cbn [map_items]. rewrite IH. reflexivity.
Qed.

Lemma items_children_strings log :
  items_children (List.map (fun qt : jsstring * jsstring => Some (JStr (fst qt))) log)
    = Normal tt.
Proof. induction log as [|qt log IH]; [reflexivity|exact IH]. Qed.

Lemma render_history_entries a log :
  searchHistory a = JArr (entries log) ->
  render_history a = Normal (List.map (fun qt => Some (JStr (fst qt))) log).
Proof.
  intros Hh. unfold render_history, history_elements. rewrite Hh, map_items_entries.
  cbn [bind]. rewrite items_children_strings. reflexivity.
Qed.

End Sessions.

(** X1. From a fresh component over an empty storage, whatever is typed,
    submitted and answered, and however often the page is loaded again, the
    history in memory is exactly the sequence of the submissions whose
    request resolved, the latest first, each entry holding the query that
    was in the input and the time of its submission; submissions whose
    request was rejected leave no trace in it. *)
Theorem session_history (es : list event) :
  Forall event_strings es ->
  searchHistory (component (run es (initial_world ∅)))
    = JArr (entries (recorded es [] [])).
Proof.
  intros Hes.
  destruct (run_keeps es (initial_world ∅) [] [] fresh_in_session Hes)
    as (_ & _ & _ & Hh & _).
  exact Hh.
Qed.

Lemma session_history_witness :
  let es := [Typed (lit "open change tickets");
             Submitted (Delivered 200 (JObj [(lit "success", JBool true)])) noon;
             Typed (lit "closed");
             Submitted (NoResponse (lit "Network Error")) noon;
             Reloaded;
             Submitted (Delivered 200 JNull) (lit "2025-05-09T12:05:00.000Z")] in
  Forall event_strings es /\
  searchHistory (component (run es (initial_world ∅)))
    = JArr [history_entry [] (lit "2025-05-09T12:05:00.000Z");
            history_entry (lit "open change tickets") noon].
Proof.
  assert (H : Forall event_strings
    [Typed (lit "open change tickets");
     Submitted (Delivered 200 (JObj [(lit "success", JBool true)])) noon;
     Typed (lit "closed");
     Submitted (NoResponse (lit "Network Error")) noon;
     Reloaded;
     Submitted (Delivered 200 JNull) (lit "2025-05-09T12:05:00.000Z")]).
  { repeat constructor; cbn; unfold code_unit; lia. }
  split; [exact H|].
  rewrite (session_history _ H). reflexivity.
Defined.

(** X2. At every point of such a session the storage slot and the history
    in memory agree: loading the page again raises nothing and starts from
    the very history the session had; the slot is absent exactly while
    nothing has been recorded. *)
Theorem session_reload_restores (es : list event) :
  Forall event_strings es ->
  let w := run es (initial_world ∅) in
  let reloaded := loadHistory (initial_world (localStorage w)) in
  snd reloaded = Normal tt /\
  searchHistory (component (fst reloaded)) = searchHistory (component w) /\
  (localStorage w !! history_key = None <-> searchHistory (component w) = JArr []).
Proof.
  intros Hes w reloaded.
  pose proof (run_keeps es (initial_world ∅) [] [] fresh_in_session Hes) as Hin.
  fold w in Hin. subst reloaded. rewrite (reload_in_session _ _ _ Hin).
  destruct Hin as (_ & _ & _ & Hh & Hs). rewrite Hh, Hs.
  split; [reflexivity|]. split; [reflexivity|].
  destruct (recorded es [] []) as [|qt log]; split; intros H;
    try reflexivity; discriminate H.
Qed.

Lemma session_reload_restores_witness :
  let es := [Typed (lit "open change tickets");
             Submitted (Delivered 200 (JObj [(lit "success", JBool true)])) noon] in
  Forall event_strings es /\
  searchHistory
    (component (fst (loadHistory
       (initial_world (localStorage (run es (initial_world ∅)))))))
    = JArr [history_entry (lit "open change tickets") noon].
Proof.
  assert (H : Forall event_strings
    [Typed (lit "open change tickets");
     Submitted (Delivered 200 (JObj [(lit "success", JBool true)])) noon]).
  { repeat constructor; cbn; unfold code_unit; lia. }
  split; [exact H|].
  rewrite (proj1 (proj2 (session_reload_restores _ H))). reflexivity.
Defined.

(** X3. The history never loses an entry: whatever follows in the session
    (failed submissions and page loads included), the history it had is
    still there, in the same order, below the entries that came since. *)
Theorem session_keeps_entries (es es' : list event) :
  Forall event_strings (es ++ es') ->
  exists older newer,
    searchHistory (component (run es (initial_world ∅))) = JArr older /\
    searchHistory (component (run (es ++ es') (initial_world ∅)))
      = JArr (newer ++ older).
Proof.
  intros Hall. apply Forall_app in Hall as [Hes Hes'].
  pose proof (run_keeps es (initial_world ∅) [] [] fresh_in_session Hes) as Hin.
  pose proof (run_keeps es' _ _ _ Hin Hes') as Hin'.
  destruct Hin as (_ & _ & _ & Hh & _). destruct Hin' as (_ & _ & _ & Hh' & _).
  destruct (recorded_extends es'
              (query (component (run es (initial_world ∅))))
              (recorded es [] [])) as [newer Hn].
  exists (entries (recorded es [] [])), (entries newer). split; [exact Hh|].
  unfold run in *. rewrite fold_left_app, Hh', Hn.
  unfold entries. rewrite List.map_app. reflexivity.
Qed.

Lemma session_keeps_entries_witness :
  let es := [Typed (lit "a"); Submitted (Delivered 200 JNull) noon] in
  let es' := [Reloaded; Submitted (Delivered 500 JNull) noon;
              Typed (lit "b"); Submitted (Delivered 204 JNull) noon] in
  Forall event_strings (es ++ es') /\
  exists older newer,
    searchHistory (component (run es (initial_world ∅))) = JArr older /\
    searchHistory (component (run (es ++ es') (initial_world ∅)))
      = JArr (newer ++ older).
Proof.
  assert (H : Forall event_strings
    ([Typed (lit "a"); Submitted (Delivered 200 JNull) noon] ++
     [Reloaded; Submitted (Delivered 500 JNull) noon;
      Typed (lit "b"); Submitted (Delivered 204 JNull) noon])).
  { repeat constructor; cbn; unfold code_unit; lia. }
  split; [exact H|].
  exact (session_keeps_entries _ _ H).
Defined.

(** X4. Throughout such a session the history list is in order: its items
    are rendered without error and are, item for item, the queries of the
    recorded submissions, the latest first. Whenever the page is rendered
    at all, that list is on it; and the page is rendered exactly when React
    can show the rows of the table and the error. *)
Theorem session_history_renders (es : list event) :
  Forall event_strings es ->
  let a := component (run es (initial_world ∅)) in
  let queries := List.map (fun qt => Some (JStr (fst qt))) (recorded es [] []) in
  render_history a = Normal queries /\
  (forall v, render a = Normal v -> view_history v = queries) /\
  ((exists v, render a = Normal v) <->
   (exists rows, render_rows a = Normal rows) /\
   (exists text, child_text (error a) = Normal text)).
Proof.
  intros Hes a queries.
  destruct (run_keeps es (initial_world ∅) [] [] fresh_in_session Hes)
    as (_ & _ & _ & Hh & _).
  fold a in Hh.
  assert (Hq : render_history a = Normal queries)
    by exact (render_history_entries a _ Hh).
  split; [exact Hq|]. split.
  - intros v Hv. apply render_parts in Hv as (_ & _ & Hi).
    rewrite Hi in Hq. inversion Hq. reflexivity.
  - rewrite render_defined. split.
    + intros (Hrows & Hchild & _). split; [exact Hrows|].
      destruct (child_text (error a)) as [text|e] eqn:E; [eauto|].
      rewrite (error_child_Throw a e E) in Hchild. discriminate Hchild.
    + intros (Hrows & text & Htext). split; [exact Hrows|].
      split; [exact (error_child_Normal a text Htext)|]. eauto.
Qed.

Lemma session_history_renders_witness :
  let es := [Typed (lit "open"); Submitted (Delivered 200 JNull) noon; Reloaded] in
  Forall event_strings es /\
  render_history (component (run es (initial_world ∅)))
    = Normal [Some (JStr (lit "open"))].
Proof.
  assert (H : Forall event_strings
    [Typed (lit "open"); Submitted (Delivered 200 JNull) noon; Reloaded]).
  { repeat constructor; cbn; unfold code_unit; lia. }
  split; [exact H|].
  pose proof (session_history_renders _ H) as R. cbv zeta in R.
  destruct R as (R & _). rewrite R. reflexivity.
Defined.

(* ===================================================================== *)
(** ** The outcome of a submission *)
(* ===================================================================== *)



(** X6. A submission starts from a clean slate: what it leaves behind -
    every cell, the storage, the request it issues and how the handler
    ends - does not depend on the error or on the loading flag that earlier
    submissions left. *)
Theorem submission_forgets_error
    (t : transport) (now : jsstring) (w : World) (e : json) (b : bool) :
  handleSubmit t now (setLoading b (setError e w)) = handleSubmit t now w.
Proof.
  unfold handleSubmit, handleSubmit_begin, handleSubmit_resume.
  destruct (axios_settle t) as [response|err].
  - unfold on_resolved. cbn [c_history c_query component setLoading setError with_app
                             searchHistory query].
    destruct (spread (searchHistory (component w))); [reflexivity|].
    unfold on_caught. destruct (errorMessage e0); reflexivity.
  - unfold on_caught. destruct (errorMessage err); reflexivity.
Qed.

(* ===================================================================== *)
(** ** More on the component *)
(* ===================================================================== *)

(** X7. What is typed while the request is under way does not reach the
    submission: the handler goes on with the query and the history of the
    render it started in, so the entry it records is for the query that was
    sent, while the input keeps the newer text. *)
Theorem typing_while_loading
    (w : World) (typed : jsstring) (t : transport) (now : jsstring)
    (h : list json) (response : axios_response) :
  searchHistory (component w) = JArr h ->
  axios_settle t = Normal response ->
  let started := handleSubmit_begin w in
  let w' := fst (handleSubmit_resume (fst started) now t
                   (setQuery typed (snd started))) in
  requests w' = requests w ++ [search_request (query (component w))] /\
  searchHistory (component w')
    = JArr (history_entry (query (component w)) now :: h) /\
  getItem history_key w'
    = Some (JSON.stringify (JArr (history_entry (query (component w)) now :: h))) /\
  query (component w') = typed /\
  results (component w') = data response.
Proof.
  intros Hh Hs started w'. subst w' started.
  unfold handleSubmit_begin, handleSubmit_resume. cbn [fst snd].
  rewrite Hs. unfold on_resolved. cbn [c_history c_query]. rewrite Hh.
  cbn [spread]. cbn. repeat split. apply lookup_insert_eq.
Qed.

Lemma typing_while_loading_witness :
  let w := setQuery (lit "open") (initial_world ∅) in
  let t := Delivered 200 (JObj [(lit "success", JBool true)]) in
  searchHistory (component w) = JArr [] /\
  axios_settle t = Normal (Response 200 (JObj [(lit "success", JBool true)])) /\
  searchHistory
    (component (fst (handleSubmit_resume (fst (handleSubmit_begin w)) noon t
                       (setQuery (lit "opened today") (snd (handleSubmit_begin w))))))
    = JArr [history_entry (lit "open") noon].
Proof.
  split; [reflexivity|]. split; [reflexivity|].
  pose proof (typing_while_loading (setQuery (lit "open") (initial_world ∅))
                (lit "opened today")
                (Delivered 200 (JObj [(lit "success", JBool true)])) noon []
                (Response 200 (JObj [(lit "success", JBool true)])) eq_refl eq_refl)
    as H.
  cbv zeta in H. destruct H as (_ & H & _). exact H.
Defined.

(** X8. A response with a 2xx status whose body does not carry a truthy
    success flag is a silent failure: after the submission the table is not
    shown and no error is set, yet the body is held as the result and the
    query is recorded in the history. *)
Theorem unsuccessful_body_is_silent
    (st : N) (body : json) (now : jsstring) (w : World) (h : list json) :
  searchHistory (component w) = JArr h ->
  is_2xx st = true ->
  match body with
  | JObj fields => truthy (lookup_field (lit "success") fields)
  | _ => false
  end = false ->
  let w' := fst (handleSubmit (Delivered st body) now w) in
  table_shown (component w') = false /\
  render_rows (component w') = Normal [] /\
  error (component w') = JNull /\
  results (component w') = body /\
  searchHistory (component w')
    = JArr (history_entry (query (component w)) now :: h).
Proof.
  intros Hh Hst Hb w'.
  assert (Hs : axios_settle (Delivered st body) = Normal (Response st body))
    by (cbn; rewrite Hst; reflexivity).
  subst w'. rewrite (handleSubmit_resolved _ now w _ h Hs) by (rewrite Hh; reflexivity).
  cbv zeta. cbn [fst component error results searchHistory data].
  assert (Ht : table_shown
                 {| query := query (component w); results := body; loading := false;
                    error := JNull;
                    searchHistory :=
                      JArr (history_entry (query (component w)) now :: h) |} = false).
  { unfold table_shown. cbn [results].
    destruct body; try reflexivity; cbn [get truthy andb].
    - destruct b; reflexivity.
    - rewrite andb_false_r. reflexivity.
    - rewrite andb_false_r. reflexivity.
    - rewrite Hb. reflexivity. }
  rewrite (render_rows_hidden _ Ht), Ht. repeat split.
Qed.

Lemma unsuccessful_body_is_silent_witness :
  let body := JObj [(lit "success", JBool false);
                    (lit "error", JStr (lit "Invalid query"))] in
  let w := initial_world ∅ in
  searchHistory (component w) = JArr [] /\
  is_2xx 200 = true /\
  table_shown (component (fst (handleSubmit (Delivered 200 body) noon w))) = false /\
  error (component (fst (handleSubmit (Delivered 200 body) noon w))) = JNull.
Proof.
  split; [reflexivity|]. split; [reflexivity|].
  pose proof (unsuccessful_body_is_silent 200
    (JObj [(lit "success", JBool false); (lit "error", JStr (lit "Invalid query"))])
    noon (initial_world ∅) [] eq_refl eq_refl eq_refl) as H.
  cbv zeta in H. destruct H as (H1 & _ & H3 & _). split; [exact H1|exact H3].
Defined.

Section Rendering.

(** Completions of [unit]. *)
Lemma bind_unit {A} (c : completion A) (k : A -> completion unit) :
  bind c k = Normal tt <-> exists x, c = Normal x /\ k x = Normal tt.
Proof.
  destruct c as [x|e]; cbn [bind]; split.
  - eauto.
  - intros (y & [= <-] & H). exact H.
  - discriminate.
  - intros (y & H & _). discriminate H.
Qed.

Lemma child_unit (v : value) :
  bind (child v) (fun _ => Normal tt) = Normal tt <-> exists text, child v = Normal text.
Proof.
  rewrite bind_unit. split; [intros (x & H & _); eauto|intros (x & H); eauto].
Qed.

Lemma get_not_null k i : i <> JNull -> exists x, get k (Some i) = Normal x.
Proof. intros H. destruct i; try contradiction; cbn; eauto. Qed.

Lemma history_item_renders i :
  (exists x, history_item i = Normal x /\ exists text, child x = Normal text) <->
  item_renders i.
Proof.
  unfold item_renders, history_item. split.
  - intros (x & H & Hx).
    assert (Hi : i <> JNull) by (intros ->; discriminate H).
    split; [exact Hi|].
    destruct (get_not_null (lit "query") i Hi) as [q Hq].
    destruct (get_not_null (lit "timestamp") i Hi) as [t Ht].
    rewrite Hq, Ht in H. cbn [bind] in H.
    destruct (to_primitive t) as [[]|] eqn:Ep; cbn [bind] in H; [|discriminate].
    inversion H; subst. split.
    + intros q' Hq'. rewrite Hq in Hq'. inversion Hq'; subst. exact Hx.
    + intros t' Ht'. rewrite Ht in Ht'. inversion Ht'; subst. exact Ep.
  - intros (Hi & Hq & Ht).
    destruct (get_not_null (lit "query") i Hi) as [q Eq].
    destruct (get_not_null (lit "timestamp") i Hi) as [t Et].
    rewrite Eq, Et. cbn [bind]. rewrite (Ht t Et). cbn [bind].
    exists q. split; [reflexivity|exact (Hq q Eq)].
Qed.

Lemma map_items_Forall2 items : forall xs,
  map_items items = Normal xs <->
  Forall2 (fun i x => history_item i = Normal x) items xs.
Proof.
  induction items as [|i items IH]; intros xs; cbn [map_items].
  - split; [intros [= <-]; constructor|intros H; inversion H; reflexivity].
  - split.
    + intros H. destruct (history_item i) as [x|] eqn:Ei; cbn [bind] in H; [|discriminate].
      destruct (map_items items) as [ys|] eqn:Em; cbn [bind] in H; [|discriminate].
      inversion H; subst. constructor; [exact Ei|]. apply IH. reflexivity.
    + intros H. inversion H as [|? x ? ys Hx Hrest]; subst.
      rewrite Hx. cbn [bind]. apply IH in Hrest. rewrite Hrest. reflexivity.
Qed.

Lemma items_children_Forall xs :
  items_children xs = Normal tt <->
  Forall (fun x => exists text, child x = Normal text) xs.
Proof.
  induction xs as [|x xs IH]; cbn [items_children].
  - split; [constructor|reflexivity].
  - rewrite bind_unit. split.
    + intros (text & Hx & Hrest). constructor; [eauto|]. apply IH. exact Hrest.
    + intros H. inversion H as [|? ? [text Hx] Hrest]; subst.
      exists text. split; [exact Hx|]. apply IH. exact Hrest.
Qed.

Lemma render_history_spec a xs :
  render_history a = Normal xs <->
  exists items,
    searchHistory a = JArr items /\
    Forall2 (fun i x => history_item i = Normal x) items xs /\
    Forall (fun x => exists text, child x = Normal text) xs.
Proof.
  unfold render_history, history_elements. split.
  - intros H. destruct (searchHistory a) as [| | | |items|]; try discriminate H.
    destruct (map_items items) as [ys|] eqn:Em; cbn [bind] in H; [|discriminate].
    destruct (items_children ys) as [[]|] eqn:Ec; cbn [bind] in H; [|discriminate].
    inversion H; subst. exists items. split; [reflexivity|].
    split; [apply map_items_Forall2; exact Em|apply items_children_Forall; exact Ec].
  - intros (items & -> & Hm & Hc).
    apply map_items_Forall2 in Hm. apply items_children_Forall in Hc.
    rewrite Hm. cbn [bind]. rewrite Hc. reflexivity.
Qed.

(** Two lists in step, and what holds of each pair. *)
Lemma Forall2_Forall_l {A B} (R : A -> B -> Prop) (P : B -> Prop) (Q : A -> Prop) l : forall l',
  (forall a b, R a b -> P b -> Q a) ->
  Forall2 R l l' -> Forall P l' -> Forall Q l.
Proof.
  induction l as [|a l IH]; intros l' H HR HP; [constructor|].
  inversion HR as [|? b ? bs Hab Hrest]; subst.
  inversion HP as [|? ? Hb HPs]; subst.
  constructor; [exact (H a b Hab Hb)|exact (IH bs H Hrest HPs)].
Qed.

Lemma Forall_Forall2_ex {A B} (R : A -> B -> Prop) (P : B -> Prop) l :
  Forall (fun a => exists b, R a b /\ P b) l ->
  exists l', Forall2 R l l' /\ Forall P l'.
Proof.
  induction l as [|a l IH]; intros H.
  - exists []. split; constructor.
  - inversion H as [|? ? (b & Hab & Hb) Hrest]; subst.
    destruct (IH Hrest) as (l' & HR & HP).
    exists (b :: l'). split; constructor; assumption.
Qed.

Lemma assigned_to_cell_not_null r :
  r <> JNull -> exists c, assigned_to_cell r = Normal c.
Proof.
  intros H. unfold assigned_to_cell.
  destruct (get_not_null (lit "assigned_to") r H) as [x ->]. cbn [bind].
  destruct x as [[]|]; cbn [get_opt get bind]; eauto.
Qed.

Lemma row_children_spec r :
  row_children r = Normal tt <->
  (exists text, child (cell_number r) = Normal text) /\
  (exists text, child (cell_description r) = Normal text) /\
  (exists text, child (cell_state r) = Normal text) /\
  (exists text, child_text (cell_assigned r) = Normal text).
Proof.
  unfold row_children. rewrite !bind_unit. split.
  - intros (t1 & H1 & H). apply bind_unit in H as (t2 & H2 & H).
    apply bind_unit in H as (t3 & H3 & H). apply bind_unit in H as (t4 & H4 & _).
    eauto 10.
  - intros ((t1 & H1) & (t2 & H2) & (t3 & H3) & (t4 & H4)).
    exists t1. split; [exact H1|]. rewrite H2. cbn [bind]. rewrite H3. cbn [bind].
    rewrite H4. reflexivity.
Qed.

Lemma render_row_cells record r :
  render_row record = Normal r ->
  get (lit "number") (Some record) = Normal (cell_number r) /\
  get (lit "short_description") (Some record) = Normal (cell_description r) /\
  get (lit "state") (Some record) = Normal (cell_state r) /\
  bind (get (lit "opened_at") (Some record)) formatDate = Normal (cell_opened r) /\
  assigned_to_cell record = Normal (cell_assigned r) /\
  to_primitive (cell_number r) = Normal tt.
Proof.
  unfold render_row. intros H.
  destruct (get (lit "number") (Some record)) as [n|]; cbn [bind] in H; [|discriminate].
  destruct (get (lit "short_description") (Some record)) as [d|]; cbn [bind] in H;
    [|discriminate].
  destruct (get (lit "state") (Some record)) as [s|]; cbn [bind] in H; [|discriminate].
  destruct (get (lit "opened_at") (Some record)) as [o|]; cbn [bind] in H |- *;
    [|discriminate].
  destruct (formatDate o) as [f|]; cbn [bind] in H; [|discriminate].
  destruct (assigned_to_cell record) as [c|]; cbn [bind] in H; [|discriminate].
  destruct (to_primitive n) as [[]|] eqn:Ep; cbn [bind] in H; [|discriminate].
  inversion H; subst. cbn. auto 10.
Qed.

Lemma render_row_renders record :
  (exists r, render_row record = Normal r /\ row_children r = Normal tt) <->
  record_renders record.
Proof.
  unfold record_renders. split.
  - intros (r & Hr & Hc).
    assert (Hn : record <> JNull) by (intros ->; discriminate Hr).
    apply render_row_cells in Hr as (H1 & H2 & H3 & H4 & H5 & H6).
    apply row_children_spec in Hc as (C1 & C2 & C3 & C4).
    split; [exact Hn|]. split; [|split; [|split; [|split]]].
    + intros x Hx. rewrite H1 in Hx. inversion Hx; subst. auto.
    + intros x Hx. rewrite H2 in Hx. inversion Hx; subst. exact C2.
    + intros x Hx. rewrite H3 in Hx. inversion Hx; subst. exact C3.
    + intros x Hx. rewrite Hx in H4. cbn [bind] in H4. eauto.
    + unfold assigned_to_text. rewrite H5. exact C4.
  - intros (Hn & Hnum & Hdesc & Hstate & Hopen & [text Ha]).
    destruct (get_not_null (lit "number") record Hn) as [n En].
    destruct (get_not_null (lit "short_description") record Hn) as [d Ed].
    destruct (get_not_null (lit "state") record Hn) as [s Es].
    destruct (get_not_null (lit "opened_at") record Hn) as [o Eo].
    destruct (Hopen o Eo) as [f Ef].
    destruct (assigned_to_cell_not_null record Hn) as [c Ec].
    destruct (Hnum n En) as [Cn Pn].
    exists (mkRow n d s f c). split.
    + unfold render_row. rewrite En, Ed, Es, Eo. cbn [bind]. rewrite Ef, Ec. cbn [bind].
      rewrite Pn. reflexivity.
    + apply row_children_spec. cbn [cell_number cell_description cell_state cell_assigned].
      split; [exact Cn|]. split; [exact (Hdesc d Ed)|]. split; [exact (Hstate s Es)|].
      unfold assigned_to_text in Ha. rewrite Ec in Ha. eauto.
Qed.

Lemma map_rows_Forall2 records : forall rows,
  map_rows records = Normal rows <->
  Forall2 (fun record r => render_row record = Normal r) records rows.
Proof.
  induction records as [|record records IH]; intros rows; cbn [map_rows].
  - split; [intros [= <-]; constructor|intros H; inversion H; reflexivity].
  - split.
    + intros H. destruct (render_row record) as [r|] eqn:Er; cbn [bind] in H; [|discriminate].
      destruct (map_rows records) as [rs|] eqn:Em; cbn [bind] in H; [|discriminate].
      inversion H; subst. constructor; [exact Er|]. apply IH. reflexivity.
    + intros H. inversion H as [|? r ? rs Hr Hrest]; subst.
      rewrite Hr. cbn [bind]. apply IH in Hrest. rewrite Hrest. reflexivity.
Qed.

Lemma rows_children_Forall rows :
  rows_children rows = Normal tt <-> Forall (fun r => row_children r = Normal tt) rows.
Proof.
  induction rows as [|r rows IH]; cbn [rows_children].
  - split; [constructor|reflexivity].
  - rewrite bind_unit. split.
    + intros ([] & Hr & Hrest). constructor; [exact Hr|]. apply IH. exact Hrest.
    + intros H. inversion H as [|? ? Hr Hrest]; subst.
      exists tt. split; [exact Hr|]. apply IH. exact Hrest.
Qed.

Lemma render_rows_spec a records rows :
  table_shown a = true ->
  get (lit "data") (Some (results a)) = Normal (Some (JArr records)) ->
  render_rows a = Normal rows <->
  Forall2 (fun record r => render_row record = Normal r) records rows /\
  Forall (fun r => row_children r = Normal tt) rows.
Proof.
  intros Ht Hd. unfold render_rows, table_elements. rewrite Ht, Hd. split.
  - intros H. destruct (map_rows records) as [rs|] eqn:Em; cbn [bind] in H; [|discriminate].
    destruct (rows_children rs) as [[]|] eqn:Ec; cbn [bind] in H; [|discriminate].
    inversion H; subst.
    split; [apply map_rows_Forall2; exact Em|apply rows_children_Forall; exact Ec].
  - intros (Hm & Hc). apply map_rows_Forall2 in Hm. apply rows_children_Forall in Hc.
    rewrite Hm. cbn [bind]. rewrite Hc. reflexivity.
Qed.

End Rendering.


(** X10. A stored text that is JSON but does not denote an array is loaded
    without any error, and the history list can then not be rendered: the
    load does not check the shape of what it reads. *)
Theorem stored_non_array_breaks_list
    (store : gmap jsstring jsstring) (text : jsstring) (v : json) :
  store !! history_key = Some text ->
  text <> [] ->
  JSON.parse text = Normal v ->
  (forall items, v <> JArr items) ->
  let loaded := loadHistory (initial_world store) in
  snd loaded = Normal tt /\
  searchHistory (component (fst loaded)) = v /\
  exists e, render_history (component (fst loaded)) = Throw e.
Proof.
  intros Hs Hne Hp Hv loaded. subst loaded.
  unfold loadHistory, getItem. cbn [initial_world localStorage]. rewrite Hs.
  destruct text as [|c text]; [contradiction|]. rewrite Hp.
  cbn [fst snd setSearchHistory with_app component searchHistory].
  split; [reflexivity|]. split; [reflexivity|].
  unfold render_history, history_elements. cbn [searchHistory].
  destruct v; cbn [bind]; eauto. exfalso. exact (Hv items eq_refl).
Qed.

Lemma stored_non_array_breaks_list_witness :
  let store : gmap jsstring jsstring := <[history_key := lit "{}"]> ∅ in
  store !! history_key = Some (lit "{}") /\
  JSON.parse (lit "{}") = Normal (JObj []) /\
  snd (loadHistory (initial_world store)) = Normal tt /\
  searchHistory (component (fst (loadHistory (initial_world store)))) = JObj [].
Proof.
  split; [reflexivity|]. split; [reflexivity|].
  pose proof (stored_non_array_breaks_list (<[history_key := lit "{}"]> ∅)
                (lit "{}") (JObj []) eq_refl ltac:(discriminate) eq_refl
                ltac:(discriminate)) as H.
  cbv zeta in H. destruct H as (H1 & H2 & _). split; [exact H1|exact H2].
Defined.




(* ===================================================================== *)
(** ** More on the development server *)
(* ===================================================================== *)

Section Frames.

Import Vite.

Variable absolute_href : jsstring -> completion jsstring.

Local Abbreviation replace_from := (Vite.replace_from absolute_href).

Lemma startsWith_split p : forall s,
  startsWith p s = true -> exists rest, s = p ++ rest.
Proof.
  induction p as [|a p IH]; intros s H; [exists s; reflexivity|].
  destruct s as [|b s]; cbn [startsWith] in H; [discriminate|].
  apply andb_true_iff in H as [Hab H]. apply N.eqb_eq in Hab as ->.
  destruct (IH s H) as [rest ->]. exists rest. reflexivity.
Qed.

Lemma startsWith_In p : forall s c,
  startsWith p s = true -> In c p -> In c s.
Proof.
  intros s c H Hc. destruct (startsWith_split p s H) as [rest ->].
  apply in_or_app. left. exact Hc.
Qed.

(** A match ends at a closing parenthesis. *)
Lemma lazy_find_paren q : forall t u rest,
  lazy_find q t = Some (u, rest) -> In 41 t.
Proof.
  induction t as [|c t IH]; intros u rest H; cbn [lazy_find] in H.
  - destruct (startsWith (q ++ [41]) []) eqn:E; [|discriminate].
    apply (startsWith_In _ _ 41 E). apply in_or_app. right. left. reflexivity.
  - destruct (startsWith (q ++ [41]) (c :: t)) eqn:E.
    + apply (startsWith_In _ _ 41 E). apply in_or_app. right. left. reflexivity.
    + destruct (is_line_terminator c); [discriminate|].
      destruct (lazy_find q t) as [[u' rest']|] eqn:E'; [|discriminate].
      right. exact (IH _ _ eq_refl).
Qed.

Lemma match_url_paren s q u rest : match_url s = Some (q, u, rest) -> In 41 s.
Proof.
  unfold match_url. destruct (startsWith (lit "url(") s) eqn:E; [|discriminate].
  destruct (startsWith_split _ _ E) as [t ->].
  change 4%nat with (length (lit "url(")). rewrite drop_app_length.
  intros H. apply in_or_app. right.
  assert (Hun : forall r : jsstring * jsstring * jsstring,
                   match lazy_find [] t with
                   | Some (u0, rest0) => Some (@nil N, u0, rest0)
                   | None => None
                   end = Some r -> In 41 t).
  { intros r Hr. destruct (lazy_find [] t) as [[u0 rest0]|] eqn:E0; [|discriminate].
    exact (lazy_find_paren _ _ _ _ E0). }
  destruct t as [|c t]; [exact (Hun _ H)|].
  destruct (is_quote c); [|exact (Hun _ H)].
  destruct (lazy_find [c] t) as [[u0 rest0]|] eqn:E1; [|exact (Hun _ H)].
  right. exact (lazy_find_paren _ _ _ _ E1).
Qed.

(** A value without a closing parenthesis has no match. *)
Lemma replace_from_no_paren value :
  forallb (fun c => negb (c =? 41)) value = true -> replace_from 0 value = Normal value.
Proof.
  induction value as [|c value IH]; intros H; [reflexivity|].
  assert (Hm : match_url (c :: value) = None).
  { destruct (match_url (c :: value)) as [[[q u] rest]|] eqn:E; [|reflexivity].
    apply match_url_paren in E. rewrite forallb_forall in H.
    specialize (H 41 E). discriminate H. }
  cbn [forallb] in H. apply andb_true_iff in H as [_ H].
  cbn [Vite.replace_from]. rewrite Hm, (IH H). reflexivity.
Qed.

End Frames.

(** X12. A value in which the text [url(] does not occur - a gradient, a
    keyword, an upper-case [URL(...)] - or in which no closing parenthesis
    occurs comes out of the transform exactly as it went in. *)
Theorem rewrite_leaves_other_values
    (absolute_href : jsstring -> completion jsstring) (value : jsstring) :
  includes (lit "url(") value = false \/
  forallb (fun c => negb (c =? 41)) value = true ->
  Vite.rewrite_value absolute_href value = Normal value.
Proof.
  intros H. rewrite rewrite_value_replace. destruct H as [H|H].
  - apply replace_from_no_url. exact H.
  - apply replace_from_no_paren. exact H.
Qed.

Lemma rewrite_leaves_other_values_witness :
  includes (lit "url(") (lit "linear-gradient(to right, red, blue), URL(a.png)")
    = false /\
  Vite.rewrite_value Vite.invalid_url
    (lit "linear-gradient(to right, red, blue), URL(a.png)")
    = Normal (lit "linear-gradient(to right, red, blue), URL(a.png)").
Proof.
  split; [reflexivity|].
  apply rewrite_leaves_other_values. left. reflexivity.
Defined.

(* ===================================================================== *)
(** ** Rewritten references *)
(* ===================================================================== *)

Section Resolved.

Import Vite.

Variable absolute_href : jsstring -> completion jsstring.

Local Abbreviation replacer := (Vite.replacer absolute_href).
Local Abbreviation replace_from := (Vite.replace_from absolute_href).
Local Abbreviation rewritten_text := (Vite.rewritten_text absolute_href).

Ltac div_mod_lia :=
  Zify.zify; Z.to_euclidean_division_equations; lia.

Lemma plain_reference_app a b :
  plain_reference (a ++ b) = plain_reference a && plain_reference b.
Proof. unfold plain_reference. apply forallb_app. Qed.

Lemma plain_reference_concat parts :
  forallb plain_reference parts = true -> plain_reference (concat parts) = true.
Proof.
  induction parts as [|p parts IH]; intros H; [reflexivity|].
  cbn [forallb concat] in *. apply andb_true_iff in H as [Hp H].
  rewrite plain_reference_app, Hp, (IH H). reflexivity.
Qed.

Lemma plain_hex d : d < 16 -> plain_reference [upper_hex_digit d] = true.
Proof.
  intros H.
  assert (E : d = 0 \/ d = 1 \/ d = 2 \/ d = 3 \/ d = 4 \/ d = 5 \/ d = 6 \/ d = 7 \/
              d = 8 \/ d = 9 \/ d = 10 \/ d = 11 \/ d = 12 \/ d = 13 \/ d = 14 \/ d = 15)
    by lia.
  repeat (destruct E as [->|E]; [reflexivity|]). subst. reflexivity.
Qed.

Lemma percent_encode_byte_plain b :
  b < 256 -> plain_reference (percent_encode_byte b) = true.
Proof.
  intros H. unfold percent_encode_byte.
  change [37; upper_hex_digit (b / 16); upper_hex_digit (b mod 16)]
    with ([37] ++ [upper_hex_digit (b / 16)] ++ [upper_hex_digit (b mod 16)]).
  rewrite !plain_reference_app, !plain_hex; [reflexivity| |]; div_mod_lia.
Qed.

Lemma utf8_encode_bytes cp :
  cp < 0x110000 -> Forall (fun b => b < 256) (utf8_encode cp).
Proof.
  intros H. unfold utf8_encode.
  destruct (cp <? 128) eqn:E1; [apply N.ltb_lt in E1; repeat constructor; lia|].
  apply N.ltb_ge in E1.
  destruct (cp <? 2048) eqn:E2;
    [apply N.ltb_lt in E2; repeat constructor; div_mod_lia|].
  destruct (cp <? 65536) eqn:E3;
    [apply N.ltb_lt in E3; repeat constructor; div_mod_lia|].
  repeat constructor; div_mod_lia.
Qed.

Lemma percent_encode_plain (set : N -> bool) cp :
  (forall c, c0_control_set c = true -> set c = true) ->
  safe_code_point cp ->
  plain_reference (percent_encode set cp) = true.
Proof.
  intros Hset [Hcp H41]. unfold percent_encode. destruct (set cp) eqn:E.
  - apply plain_reference_concat. apply forallb_forall. intros x Hx.
    apply in_map_iff in Hx as (b & <- & Hb).
    apply percent_encode_byte_plain.
    pose proof (utf8_encode_bytes cp Hcp) as Hall.
    rewrite List.Forall_forall in Hall. exact (Hall b Hb).
  - assert (Hc : c0_control_set cp = false).
    { destruct (c0_control_set cp) eqn:Ec; [|reflexivity].
      rewrite (Hset cp Ec) in E. discriminate E. }
    unfold c0_control_set in Hc. apply orb_false_iff in Hc as [H1 H2].
    apply N.leb_gt in H1. apply N.ltb_ge in H2.
    unfold utf16_encode. replace (cp <? 65536) with true
      by (symmetry; apply N.ltb_lt; lia).
    unfold plain_reference, is_line_terminator. cbn [forallb].
    repeat match goal with
           | |- context [cp =? ?k] =>
               replace (cp =? k) with false by (symmetry; apply N.eqb_neq; lia)
           end.
    reflexivity.
Qed.

Lemma fragment_set_c0 c : c0_control_set c = true -> fragment_set c = true.
Proof. unfold fragment_set. intros ->. reflexivity. Qed.

Lemma special_query_set_c0 c : c0_control_set c = true -> special_query_set c = true.
Proof. unfold special_query_set, query_set. intros ->. reflexivity. Qed.

Lemma path_set_c0 c : c0_control_set c = true -> path_set c = true.
Proof. unfold path_set, query_set. intros ->. reflexivity. Qed.

Lemma fragment_state_plain s :
  Forall safe_code_point s -> plain_reference (fragment_state s) = true.
Proof.
  intros H. unfold fragment_state. apply plain_reference_concat.
  apply forallb_forall. intros x Hx. apply in_map_iff in Hx as (c & <- & Hc).
  apply percent_encode_plain; [exact fragment_set_c0|].
  rewrite List.Forall_forall in H. exact (H c Hc).
Qed.

Lemma query_state_plain s : forall path buffer,
  forallb plain_reference path = true -> plain_reference buffer = true ->
  Forall safe_code_point s ->
  plain_url (query_state path buffer s) = true.
Proof.
  induction s as [|c s IH]; intros path buffer Hp Hb Hs; cbn [query_state].
  - unfold plain_url. cbn. rewrite Hp, Hb. reflexivity.
  - inversion Hs as [|? ? Hc Hs']; subst. destruct (c =? 35).
    + unfold plain_url. cbn. rewrite Hp, Hb, (fragment_state_plain s Hs'). reflexivity.
    + apply IH; [exact Hp| |exact Hs'].
      rewrite plain_reference_app, Hb.
      rewrite (percent_encode_plain _ c special_query_set_c0 Hc). reflexivity.
Qed.

Lemma forallb_removelast {A} (f : A -> bool) l :
  forallb f l = true -> forallb f (removelast l) = true.
Proof.
  induction l as [|x l IH]; intros H; [reflexivity|].
  cbn [forallb] in H. apply andb_true_iff in H as [Hx H].
  destruct l as [|y l]; [reflexivity|].
  change (removelast (x :: y :: l)) with (x :: removelast (y :: l)).
  cbn [forallb]. rewrite Hx, (IH H). reflexivity.
Qed.

Lemma end_segment_plain path buffer at_slash :
  forallb plain_reference path = true -> plain_reference buffer = true ->
  forallb plain_reference (end_segment path buffer at_slash) = true.
Proof.
  intros Hp Hb. unfold end_segment, shorten.
  pose proof (forallb_removelast plain_reference path Hp) as Hr.
  destruct (is_double_dot buffer); [|destruct (is_single_dot buffer)];
    destruct at_slash; rewrite ?forallb_app; cbn [forallb];
    rewrite ?Hp, ?Hr, ?Hb; reflexivity.
Qed.

Lemma path_state_plain s : forall path buffer,
  forallb plain_reference path = true -> plain_reference buffer = true ->
  Forall safe_code_point s ->
  plain_url (path_state path buffer s) = true.
Proof.
  induction s as [|c s IH]; intros path buffer Hp Hb Hs; cbn [path_state].
  - unfold plain_url. cbn. rewrite (end_segment_plain _ _ false Hp Hb). reflexivity.
  - inversion Hs as [|? ? Hc Hs']; subst.
    destruct ((c =? 47) || (c =? 92)).
    { apply IH; [apply end_segment_plain; assumption|reflexivity|exact Hs']. }
    destruct (c =? 63).
    { apply query_state_plain;
        [apply end_segment_plain; assumption|reflexivity|exact Hs']. }
    destruct (c =? 35).
    { unfold plain_url. cbn.
      rewrite (end_segment_plain _ _ false Hp Hb), (fragment_state_plain s Hs').
      reflexivity. }
    apply IH; [exact Hp| |exact Hs'].
    rewrite plain_reference_app, Hb.
    rewrite (percent_encode_plain _ c path_set_c0 Hc). reflexivity.
Qed.

Lemma relative_state_plain s u :
  Forall safe_code_point s -> relative_state s = Some u -> plain_url u = true.
Proof.
  intros Hs. unfold relative_state. destruct s as [|c s].
  - intros [= <-]; reflexivity.
  - inversion Hs as [|? ? Hc Hs']; subst.
    destruct ((c =? 47) || (c =? 92)).
    { destruct s as [|d s].
      - intros [= <-]; reflexivity.
      - destruct ((d =? 47) || (d =? 92)); [discriminate|].
        intros [= <-].
        apply (path_state_plain (d :: s) [] []); [reflexivity..|exact Hs']. }
    destruct (c =? 63).
    { intros [= <-]. apply query_state_plain; [reflexivity..|exact Hs']. }
    destruct (c =? 35).
    { intros [= <-]. unfold plain_url. cbn.
      rewrite (fragment_state_plain s Hs'). reflexivity. }
    intros [= <-].
    apply (path_state_plain (c :: s) (shorten (url_path base_url)) []);
      [reflexivity..|exact Hs].
Qed.

Lemma serialize_plain u : plain_url u = true -> plain_reference (serialize u) = true.
Proof.
  unfold plain_url, serialize. intros H.
  apply andb_true_iff in H as [H Hf]. apply andb_true_iff in H as [Hp Hq].
  rewrite !plain_reference_app.
  assert (Hpath : plain_reference
                    (concat (List.map (fun seg => [47] ++ seg) (url_path u))) = true).
  { apply plain_reference_concat. apply forallb_forall. intros x Hx.
    apply in_map_iff in Hx as (seg & <- & Hseg).
    rewrite forallb_forall in Hp. rewrite plain_reference_app, (Hp seg Hseg).
    reflexivity. }
  rewrite Hpath.
  destruct (url_query u); destruct (url_fragment u);
    rewrite ?plain_reference_app, ?Hq, ?Hf; reflexivity.
Qed.

(** The code points of a string of code units. *)
Lemma code_points_safe r :
  well_formed r -> forallb (fun c => negb (c =? 41)) r = true ->
  Forall safe_code_point (code_points r).
Proof.
  remember (length r) as n eqn:Hn. revert r Hn.
  induction n as [n IH] using lt_wf_ind. intros r Hn Hwf H41.
  destruct r as [|c r]; [constructor|].
  inversion Hwf as [|? ? Hc Hwf']; subst.
  cbn [forallb] in H41. apply andb_true_iff in H41 as [Hc41 H41].
  apply negb_true_iff, N.eqb_neq in Hc41.
  assert (Hsafe : safe_code_point c) by (unfold code_unit in Hc; split; [lia|exact Hc41]).
  destruct r as [|d r]; [constructor; [exact Hsafe|constructor]|].
  rewrite code_points_two. destruct (is_lead c && is_trail d) eqn:E.
  - inversion Hwf' as [|? ? Hd Hwf'']; subst.
    cbn [forallb] in H41. apply andb_true_iff in H41 as [_ H41].
    constructor.
    + apply andb_true_iff in E as [E1 E2]. unfold is_lead, is_trail in *.
      apply andb_true_iff in E1 as [E1 E1'], E2 as [E2 E2'].
      apply N.leb_le in E1, E1', E2, E2'.
      unfold safe_code_point, pair_code_point. lia.
    + apply (IH (length r)); [cbn; lia|reflexivity|assumption..].
  - constructor; [exact Hsafe|].
    apply (IH (length (d :: r))); [cbn; lia|reflexivity|assumption..].
Qed.

Lemma drop_leading_In c s : In c (drop_leading_c0_space s) -> In c s.
Proof.
  induction s as [|x s IH]; cbn [drop_leading_c0_space]; [auto|].
  destruct (x <=? 32); [intros H; right; exact (IH H)|auto].
Qed.

Lemma clean_safe r :
  well_formed r -> forallb (fun c => negb (c =? 41)) r = true ->
  Forall safe_code_point (clean (scalar_values r)).
Proof.
  intros Hwf H41. apply List.Forall_forall. intros c Hc.
  unfold clean in Hc. apply filter_In in Hc as [Hc _].
  apply in_rev, drop_leading_In, in_rev, drop_leading_In in Hc.
  unfold scalar_values in Hc. apply in_map_iff in Hc as (x & <- & Hx).
  pose proof (code_points_safe r Hwf H41) as Hall.
  rewrite List.Forall_forall in Hall.
  destruct (is_surrogate x); [split; [lia|discriminate]|exact (Hall x Hx)].
Qed.

Lemma scheme_state_rest (P : N -> Prop) s : forall sch rest,
  scheme_state s = Some (sch, rest) -> Forall P s -> Forall P rest.
Proof.
  induction s as [|c s IH]; intros sch rest H Hs; cbn [scheme_state] in H;
    [discriminate|].
  inversion Hs as [|? ? _ Hs']; subst.
  destruct (c =? 58); [inversion H; subst; exact Hs'|].
  destruct (is_scheme_char c); [|discriminate].
  destruct (scheme_state s) as [[sch' rest']|] eqn:E; [|discriminate].
  inversion H; subst. exact (IH _ _ eq_refl Hs').
Qed.

Lemma href_parsed r h :
  resolve_on_base r = Some h ->
  exists s u, relative_state s = Some u /\ h = serialize u /\
              (Forall safe_code_point (clean (scalar_values r)) ->
               Forall safe_code_point s).
Proof.
  unfold resolve_on_base. unfold scheme_of.
  set (s := clean (scalar_values r)).
  assert (Hrel : forall s0, (Forall safe_code_point s -> Forall safe_code_point s0) ->
            match relative_state s0 with
            | Some u => Some (serialize u)
            | None => None
            end = Some h ->
            exists s1 u, relative_state s1 = Some u /\ h = serialize u /\
                         (Forall safe_code_point s -> Forall safe_code_point s1)).
  { intros s0 Hs0 H. destruct (relative_state s0) as [u|] eqn:E; [|discriminate].
    inversion H. exists s0, u. auto. }
  destruct s as [|c s'] eqn:Es; [apply Hrel; auto|].
  destruct (is_alpha c); [|apply Hrel; auto].
  destruct (scheme_state (c :: s')) as [[sch rest]|] eqn:E; [|apply Hrel; auto].
  destruct (str_eqb sch (lit "http")); [|discriminate].
  apply Hrel. intros Hs. exact (scheme_state_rest _ _ _ _ E Hs).
Qed.

(** A resolved reference holds no closing parenthesis and no line
    terminator. *)
Lemma href_plain r h :
  well_formed r -> forallb (fun c => negb (c =? 41)) r = true ->
  resolve_on_base r = Some h -> plain_reference h = true.
Proof.
  intros Hwf H41 H. destruct (href_parsed r h H) as (s & u & Hrel & -> & Hs).
  apply serialize_plain. apply (relative_state_plain s u); [|exact Hrel].
  apply Hs. apply clean_safe; assumption.
Qed.

(** The parsed path is never empty. *)
Lemma end_segment_nonempty path buffer :
  end_segment path buffer false <> [].
Proof.
  unfold end_segment.
  destruct (is_double_dot buffer); [|destruct (is_single_dot buffer)];
    intros H; apply app_eq_nil in H as [_ H]; discriminate H.
Qed.

Lemma query_state_path s : forall path buffer,
  url_path (query_state path buffer s) = path.
Proof.
  induction s as [|c s IH]; intros path buffer; cbn [query_state]; [reflexivity|].
  destruct (c =? 35); [reflexivity|apply IH].
Qed.

Lemma path_state_nonempty s : forall path buffer,
  url_path (path_state path buffer s) <> [].
Proof.
  induction s as [|c s IH]; intros path buffer; cbn [path_state].
  - apply end_segment_nonempty.
  - destruct ((c =? 47) || (c =? 92)); [apply IH|].
    destruct (c =? 63); [rewrite query_state_path; apply end_segment_nonempty|].
    destruct (c =? 35); [apply end_segment_nonempty|apply IH].
Qed.

Lemma relative_state_nonempty s u : relative_state s = Some u -> url_path u <> [].
Proof.
  unfold relative_state. destruct s as [|c s].
  - intros [= <-]; discriminate.
  - destruct ((c =? 47) || (c =? 92)).
    { destruct s as [|d s].
      - intros [= <-]. apply (path_state_nonempty [] [] []).
      - destruct ((d =? 47) || (d =? 92)); [discriminate|].
        intros [= <-]. apply (path_state_nonempty (d :: s)). }
    destruct (c =? 63);
      [intros [= <-]; rewrite query_state_path; discriminate|].
    destruct (c =? 35); [intros [= <-]; discriminate|].
    intros [= <-]. apply (path_state_nonempty (c :: s)).
Qed.

Lemma href_origin r h :
  resolve_on_base r = Some h -> exists p, h = dev_origin ++ 47 :: p.
Proof.
  intros H. destruct (href_parsed r h H) as (s & u & Hrel & -> & _).
  apply relative_state_nonempty in Hrel. unfold serialize.
  destruct (url_path u) as [|seg path]; [contradiction|].
  cbn [List.map concat app]. eexists. rewrite <- !app_assoc. reflexivity.
Qed.

(** What the replacer returns is a token the next run leaves alone. *)
Lemma replacer_settled q u :
  plain_reference u = true -> plain_quote q u = true -> well_formed u ->
  startsWith (lit "data:") u = true \/ startsWith (lit "http") u = true \/
    resolve_on_base u <> None ->
  exists u', replacer q u = Normal (matched q u') /\ plain_reference u' = true /\
             plain_quote q u' = true /\ replacer q u' = Normal (matched q u').
Proof.
  intros Hu Hq Hwf Hon.
  destruct (negb (startsWith (lit "data:") u) && negb (startsWith (lit "http") u))
    eqn:E.
  - apply andb_true_iff in E as [E1 E2]. apply negb_true_iff in E1, E2.
    destruct Hon as [Hon|[Hon|Hon]]; [congruence..|].
    destruct (resolve_on_base u) as [h|] eqn:Eh; [|contradiction].
    exists h. split; [exact (replacer_rewrites absolute_href q u h E1 E2 Eh)|].
    assert (H41 : forallb (fun c => negb (c =? 41)) u = true).
    { unfold plain_reference in Hu. rewrite forallb_forall in Hu.
      apply forallb_forall. intros c Hc. specialize (Hu c Hc).
      apply andb_true_iff in Hu as [Hu _]. exact Hu. }
    split; [exact (href_plain u h Hwf H41 Eh)|].
    destruct (href_origin u h Eh) as [p ->].
    split.
    + destruct q as [|x [|y q]]; cbn [plain_quote] in Hq |- *;
        [reflexivity|exact Hq|discriminate].
    + apply replacer_keeps. right. reflexivity.
  - exists u. unfold Vite.replacer. rewrite E. auto.
Qed.

Lemma rewritten_text_settled tokens tail :
  forallb plain_token tokens = true ->
  Forall (fun t => well_formed (reference t)) tokens ->
  Forall (fun t => startsWith (lit "data:") (reference t) = true \/
                   startsWith (lit "http") (reference t) = true \/
                   resolve_on_base (reference t) <> None) tokens ->
  includes (lit "url(") tail = false ->
  exists out, rewritten_text tokens tail = Normal out /\ replace_from 0 out = Normal out.
Proof.
  induction tokens as [|t ts IH]; intros Hp Hwf Hon Htail; cbn [Vite.rewritten_text].
  - exists tail. split; [reflexivity|].
    apply (replace_from_no_url absolute_href). exact Htail.
  - cbn [forallb] in Hp. apply andb_true_iff in Hp as [Ht Hp].
    inversion Hwf as [|? ? Hw Hwf']; subst. inversion Hon as [|? ? Ho Hon']; subst.
    apply plain_token_parts in Ht as (Hb & Hu & Hq).
    destruct (replacer_settled _ _ Hu Hq Hw Ho) as (u' & Hr & Hu' & Hq' & Hr').
    destruct (IH Hp Hwf' Hon' Htail) as (out' & Ho' & Hs').
    rewrite Hr, Ho'. cbn [bind]. eexists. split; [reflexivity|].
    rewrite (replace_from_quiet absolute_href); [|exact Hb|right; eexists; reflexivity].
    rewrite (replace_from_token absolute_href) by assumption.
    rewrite Hr', Hs'. reflexivity.
Qed.

End Resolved.


(** X16. The transform is idempotent on values made of tokens the pattern
    reads as written whose references are excluded or have no scheme and
    no host of their own: the run succeeds, a rewritten reference holds no
    closing parenthesis and no line break and begins with [http], so a
    second run finds the same tokens and leaves every one of them, and the
    text around them, as the first run left it. *)
Theorem rewrite_idempotent
    (absolute_href : jsstring -> completion jsstring)
    (tokens : list Vite.token) (tail : jsstring) :
  forallb Vite.plain_token tokens = true ->
  Forall (fun t => well_formed (Vite.reference t)) tokens ->
  Forall (fun t => startsWith (lit "data:") (Vite.reference t) = true \/
                   startsWith (lit "http") (Vite.reference t) = true \/
                   Vite.resolve_on_base (Vite.reference t) <> None) tokens ->
  includes (lit "url(") tail = false ->
  exists once,
    Vite.rewrite_value absolute_href (Vite.source_text tokens tail) = Normal once /\
    Vite.rewrite_value absolute_href once = Normal once.
Proof.
  intros Hp Hwf Hon Htail.
  destruct (rewritten_text_settled absolute_href tokens tail Hp Hwf Hon Htail)
    as (once & H1 & H2).
  exists once.
  rewrite !rewrite_value_replace, (replace_from_tokens absolute_href tokens tail Hp Htail).
  auto.
Qed.

Lemma rewrite_idempotent_witness :
  let tokens := [Vite.mkToken [] (lit "'") (lit "images/a.png");
                 Vite.mkToken (lit ", ") [] (lit "data:image/png;base64,AAAA")] in
  forallb Vite.plain_token tokens = true /\
  Forall (fun t => well_formed (Vite.reference t)) tokens /\
  exists once,
    Vite.rewrite_value Vite.invalid_url (Vite.source_text tokens []) = Normal once /\
    Vite.rewrite_value Vite.invalid_url once = Normal once.
Proof.
  assert (Hwf : Forall (fun t => well_formed (Vite.reference t))
                  [Vite.mkToken [] (lit "'") (lit "images/a.png");
                   Vite.mkToken (lit ", ") [] (lit "data:image/png;base64,AAAA")]).
  { repeat constructor; cbn; unfold code_unit; lia. }
  split; [reflexivity|]. split; [exact Hwf|].
  apply (rewrite_idempotent Vite.invalid_url
           [Vite.mkToken [] (lit "'") (lit "images/a.png");
            Vite.mkToken (lit ", ") [] (lit "data:image/png;base64,AAAA")]
           [] eq_refl Hwf).
  - constructor; [right; right; discriminate|].
    constructor; [left; reflexivity|constructor].
  - reflexivity.
Defined.

Section Unclosed.

Import Vite.

Variable absolute_href : jsstring -> completion jsstring.

Lemma lazy_find_no_paren q t :
  forallb (fun c => negb (c =? 41)) t = true -> lazy_find q t = None.
Proof.
  intros H. destruct (lazy_find q t) as [[u rest]|] eqn:E; [|reflexivity].
  apply lazy_find_paren in E. rewrite forallb_forall in H.
  specialize (H 41 E). discriminate H.
Qed.

Lemma is_quote_cases c : is_quote c = true -> c = 39 \/ c = 34.
Proof.
  unfold is_quote. intros H. apply orb_true_iff in H as [H|H];
    apply N.eqb_eq in H; auto.
Qed.

(** With no closing counterpart before the parenthesis, and no parenthesis
    after it, the quoted reading finds no match. *)
Lemma lazy_find_unclosed c rest : forall u,
  is_quote c = true ->
  plain_reference u = true ->
  last u <> Some c ->
  forallb (fun x => negb (x =? 41)) rest = true ->
  lazy_find [c] (u ++ 41 :: rest) = None.
Proof.
  intros u Hc. assert (Hc41 : (c =? 41) = false)
    by (destruct (is_quote_cases c Hc) as [-> | ->]; reflexivity).
  induction u as [|x u IH]; intros Hu Hlast Hrest; cbn [app lazy_find].
  - cbn [app startsWith]. rewrite Hc41. cbn [andb].
    change (is_line_terminator 41) with false. cbn match.
    rewrite (lazy_find_no_paren [c] rest Hrest). reflexivity.
  - unfold plain_reference in Hu. cbn [forallb] in Hu.
    apply andb_true_iff in Hu as [Hx Hu]. apply andb_true_iff in Hx as [_ Hlt].
    apply negb_true_iff in Hlt.
    assert (Hno : startsWith [c; 41] (x :: u ++ 41 :: rest) = false).
    { cbn [startsWith]. destruct (c =? x) eqn:Ecx; [|reflexivity]. cbn [andb].
      apply N.eqb_eq in Ecx as <-.
      destruct u as [|y u]; [exfalso; apply Hlast; reflexivity|].
      cbn [app forallb] in *. apply andb_true_iff in Hu as [Hy _].
      apply andb_true_iff in Hy as [Hy _]. apply negb_true_iff in Hy.
      rewrite N.eqb_sym, Hy. reflexivity. }
    cbn [app] in Hno. rewrite Hno, Hlt.
    rewrite IH; [reflexivity|exact Hu| |exact Hrest].
    destruct u as [|y u]; [discriminate|exact Hlast].
Qed.

(** A reference that begins with a quote character has no scheme and no
    host of its own. *)
Lemma drop_leading_snoc a c :
  (c <=? 32) = false ->
  drop_leading_c0_space (a ++ [c]) = drop_leading_c0_space a ++ [c].
Proof.
  intros H. induction a as [|x a IH]; cbn [app drop_leading_c0_space].
  - rewrite H. reflexivity.
  - destruct (x <=? 32); [exact IH|reflexivity].
Qed.

Lemma clean_head c t :
  (c <=? 32) = false ->
  exists s, clean (c :: t) = c :: s.
Proof.
  intros H. unfold clean. cbn [drop_leading_c0_space]. rewrite H.
  cbn [rev]. rewrite (drop_leading_snoc _ c H), rev_app_distr.
  cbn [rev app List.filter].
  assert (Ht : is_tab_or_newline c = false).
  { unfold is_tab_or_newline. apply N.leb_gt in H.
    replace (c =? 9) with false by (symmetry; apply N.eqb_neq; lia).
    replace (c =? 10) with false by (symmetry; apply N.eqb_neq; lia).
    replace (c =? 13) with false by (symmetry; apply N.eqb_neq; lia).
    reflexivity. }
  rewrite Ht. cbn [negb]. eauto.
Qed.

Lemma resolve_on_base_quote c u :
  is_quote c = true -> exists h, resolve_on_base (c :: u) = Some h.
Proof.
  intros Hc. unfold resolve_on_base, scalar_values.
  assert (Hcp : code_points (c :: u) = c :: code_points u).
  { destruct u as [|d u]; [reflexivity|]. rewrite code_points_two.
    destruct (is_quote_cases c Hc) as [-> | ->]; reflexivity. }
  rewrite Hcp. cbn [List.map].
  assert (Hs : is_surrogate c = false)
    by (destruct (is_quote_cases c Hc) as [-> | ->]; reflexivity).
  rewrite Hs.
  destruct (clean_head c (List.map (fun c0 => if is_surrogate c0 then 65533 else c0)
                            (code_points u))) as [s ->].
  { destruct (is_quote_cases c Hc) as [-> | ->]; reflexivity. }
  destruct (is_quote_cases c Hc) as [-> | ->]; cbn; eauto.
Qed.

End Unclosed.

(** X17. An opening quote with no closing counterpart before the
    parenthesis is read as part of the reference: [url('a.png)] is taken as
    the unquoted reference ['a.png], which has no scheme and no host of its
    own and is resolved on the development origin with the quote in its
    path. *)
Theorem unclosed_quote_is_reference
    (absolute_href : jsstring -> completion jsstring) (c : N) (u rest : jsstring) :
  Vite.is_quote c = true ->
  Vite.plain_reference u = true ->
  last u <> Some c ->
  forallb (fun x => negb (x =? 41)) rest = true ->
  exists p,
    Vite.resolve_on_base (c :: u) = Some (Vite.dev_origin ++ 47 :: p) /\
    Vite.rewrite_value absolute_href (lit "url(" ++ c :: u ++ 41 :: rest)
      = Normal (lit "url(" ++ Vite.dev_origin ++ 47 :: p ++ 41 :: rest).
Proof.
  intros Hc Hu Hlast Hrest.
  assert (Hpu : Vite.plain_reference (c :: u) = true).
  { unfold Vite.plain_reference in *. cbn [forallb]. rewrite Hu.
    destruct (is_quote_cases c Hc) as [-> | ->]; reflexivity. }
  assert (Etext : lit "url(" ++ c :: u ++ 41 :: rest
                  = Vite.matched [] (c :: u) ++ rest).
  { unfold Vite.matched. change (lit ")") with [41].
    repeat first [rewrite <- app_assoc | progress cbn [app]]. reflexivity. }
  assert (Hm : Vite.match_url (Vite.matched [] (c :: u) ++ rest)
               = Some ([], c :: u, rest)).
  { rewrite <- Etext. unfold Vite.match_url. rewrite startsWith_app.
    change 4%nat with (length (lit "url(")). rewrite drop_app_length.
    rewrite Hc, (lazy_find_unclosed c rest u Hc Hu Hlast Hrest).
    change (c :: u ++ 41 :: rest) with ((c :: u) ++ 41 :: rest).
    rewrite (lazy_find_unquoted (c :: u) rest Hpu). reflexivity. }
  destruct (resolve_on_base_quote c u Hc) as [h Eh].
  destruct (href_origin (c :: u) h Eh) as [p ->].
  exists p. split; [exact Eh|].
  rewrite rewrite_value_replace, Etext, (replace_from_match _ _ _ _ Hm).
  rewrite (replace_from_no_paren absolute_href rest Hrest).
  assert (Hr : Vite.replacer absolute_href [] (c :: u) =
               Normal (lit "url(" ++ [] ++ (Vite.dev_origin ++ 47 :: p) ++ [] ++ lit ")")).
  { apply replacer_rewrites; [| |exact Eh];
      destruct (is_quote_cases c Hc) as [-> | ->]; reflexivity. }
  rewrite Hr. cbn [bind]. change (lit ")") with [41].
  repeat first [rewrite <- app_assoc | progress cbn [app]]. reflexivity.
Qed.

Lemma unclosed_quote_is_reference_witness :
  Vite.is_quote 39 = true /\
  last (lit "a.png") <> Some 39 /\
  exists p,
    Vite.resolve_on_base (lit "'a.png") = Some (Vite.dev_origin ++ 47 :: p) /\
    Vite.rewrite_value Vite.invalid_url (lit "url('a.png)")
      = Normal (lit "url(" ++ Vite.dev_origin ++ 47 :: p ++ 41 :: []).
Proof.
  split; [reflexivity|]. split; [discriminate|].
  apply (unclosed_quote_is_reference Vite.invalid_url 39 (lit "a.png") [] eq_refl eq_refl
           ltac:(discriminate) eq_refl).
Defined.
